(** * fqcn-fixer: a shallow embedding of src/fqcn-fixer.py

    The script builds a map from short module names to fully qualified
    collection names (FQCN), then rewrites the task files line by line with
    regular expressions.

    - A Python [str] is a list of Unicode code points.
    - The module map is an insertion-ordered association list: the order of
      [dict.keys()] decides the order of the alternation in the pattern.
    - A regular expression is a term of a small abstract syntax, matched by a
      backtracking matcher with the priorities of Python's [re]: the left
      alternative first, the longest repetition first.  Text interpolated
      into a pattern is read the way [re] reads it, a dot as the wildcard;
      the other special characters of [re] are not modelled, module and
      collection names do not have them.
    - An exception ends the run: results carry the exception, and a run is
      the list of what was printed and written together with its result.
    - The file system, the two [ansible-doc] commands and the path functions
      of the library are inputs of the run. *)

From Stdlib Require Import List NArith ZArith Bool String Ascii Lia.
Import ListNotations.
Open Scope N_scope.

(** ** Text *)

(** A Python [str]: a sequence of code points. *)
Definition char := N.
Definition str := list char.

(** A literal of the development, read as a Python [str]. *)
Definition cps (s : string) : str := map N_of_ascii (list_ascii_of_string s).

Fixpoint str_eqb (a b : str) : bool :=
  match a, b with
  | [], [] => true
  | x :: a', y :: b' => (x =? y) && str_eqb a' b'
  | _, _ => false
  end.

(** [s.startswith(p)] *)
Fixpoint startswith (s p : str) {struct p} : bool :=
  match p, s with
  | [], _ => true
  | y :: p', x :: s' => (x =? y) && startswith s' p'
  | _ :: _, [] => false
  end.

(** [s.endswith(p)] *)
Definition endswith (s p : str) : bool := startswith (rev s) (rev p).

Definition c_newline : char := 10.
Definition c_star : char := 42.
Definition c_dash : char := 45.
Definition c_dot : char := 46.
Definition c_colon : char := 58.
Definition c_backslash : char := 92.

(** The characters [\s] matches in a [str] pattern: the ASCII white space,
    the four separators 0x1c-0x1f and the Unicode white space. *)
Definition is_space (c : char) : bool :=
  ((9 <=? c) && (c <=? 13)) || ((28 <=? c) && (c <=? 32))
  || (c =? 133) || (c =? 160) || (c =? 5760)
  || ((8192 <=? c) && (c <=? 8202))
  || (c =? 8232) || (c =? 8233) || (c =? 8239) || (c =? 8287) || (c =? 12288).

Definition is_digit (c : char) : bool := (48 <=? c) && (c <=? 57).
Definition is_octdigit (c : char) : bool := (48 <=? c) && (c <=? 55).
Definition is_letter (c : char) : bool :=
  ((65 <=? c) && (c <=? 90)) || ((97 <=? c) && (c <=? 122)) || (c =? 95).

(** ** The module map: a Python [dict] of strings *)

Definition dict := list (str * str).

Fixpoint dict_get (k : str) (d : dict) : option str :=
  match d with
  | [] => None
  | (k', v) :: d' => if str_eqb k k' then Some v else dict_get k d'
  end.

(** [d[k] = v]: an existing key keeps its position, a new key goes last. *)
Fixpoint dict_set (k v : str) (d : dict) : dict :=
  match d with
  | [] => [(k, v)]
  | (k', v') :: d' =>
      if str_eqb k k' then (k', v) :: d' else (k', v') :: dict_set k v d'
  end.

Definition keys (d : dict) : list str := map fst d.
Definition values (d : dict) : list str := map snd d.

(** Lines 176-177: [for fqcn in copy.copy(fqcndict).values():
    fqcndict[fqcn] = fqcn]. *)
Definition add_self_mappings (fqcndict : dict) : dict :=
  fold_left (fun d fqcn => dict_set fqcn fqcn d) (values fqcndict) fqcndict.

(** ** Regular expressions *)

Module Re.

(** What one pattern character matches. *)
Inductive atom : Type :=
| Lit (c : char)     (* an ordinary character *)
| Dot                (* [.]: anything but a newline *)
| Ws.                (* [\s] *)

Definition atom_match (a : atom) (c : char) : bool :=
  match a with
  | Lit x => c =? x
  | Dot => negb (c =? c_newline)
  | Ws => is_space c
  end.

Inductive regex : Type :=
| Eps
| One (a : atom)
| Cat (r1 r2 : regex)
| Or (r1 r2 : regex)            (* [r1|r2], left alternative first *)
| Opt (r : regex)               (* greedy [r?] *)
| Star (a : atom)               (* greedy [a*] *)
| Plus (a : atom)               (* greedy [a+] *)
| Group (name : string) (r : regex).

Definition groups := list (string * str).

Fixpoint group (name : string) (g : groups) : option str :=
  match g with
  | [] => None
  | (n, t) :: g' => if String.eqb name n then Some t else group name g'
  end.

Section Backtracking.
Context {A : Type}.

(** Greedy repetition of one atom: the longest run first, then shorter
    ones, until the continuation accepts. *)
Fixpoint star_bt (a : atom) (s : str) (k : str -> option A) : option A :=
  match s with
  | c :: s' =>
      if atom_match a c then
        match star_bt a s' k with
        | Some x => Some x
        | None => k s
        end
      else k s
  | [] => k []
  end.

(** The backtracking matcher in continuation-passing style: [k] is the
    rest of the pattern; the first success in priority order wins. *)
Fixpoint bt (r : regex) (s : str) (g : groups)
    (k : str -> groups -> option A) : option A :=
  match r with
  | Eps => k s g
  | One a =>
      match s with
      | c :: s' => if atom_match a c then k s' g else None
      | [] => None
      end
  | Cat r1 r2 => bt r1 s g (fun s1 g1 => bt r2 s1 g1 k)
  | Or r1 r2 =>
      match bt r1 s g k with
      | Some x => Some x
      | None => bt r2 s g k
      end
  | Opt r1 =>
      match bt r1 s g k with
      | Some x => Some x
      | None => k s g
      end
  | Star a => star_bt a s (fun s' => k s' g)
  | Plus a =>
      match s with
      | c :: s' =>
          if atom_match a c then star_bt a s' (fun s'' => k s'' g) else None
      | [] => None
      end
  | Group name r1 =>
      bt r1 s g (fun s' g' =>
        k s' ((name, firstn (List.length s - List.length s')%nat s) :: g'))
  end.
End Backtracking.

(** [re.compile(p).match(s)] for a pattern that starts with [^]: the groups
    of the first successful match and the text after it. *)
Definition re_match (r : regex) (s : str) : option (groups * str) :=
  bt r s [] (fun rest g => Some (g, rest)).

(** Text interpolated into a pattern with [%s]: a dot becomes the wildcard,
    every other character stands for itself.  This is what [re] makes of a
    text without the other special characters [\ ^ $ * + ? { } [ ] | ( )]. *)
Definition atom_of_char (c : char) : atom :=
  if c =? c_dot then Dot else Lit c.

Fixpoint interp (t : str) : regex :=
  match t with
  | [] => Eps
  | c :: t' => Cat (One (atom_of_char c)) (interp t')
  end.

(** ['|'.join(ks)] inside a group: no key gives the empty pattern. *)
Fixpoint alternation (ks : list str) : regex :=
  match ks with
  | [] => Eps
  | [k] => interp k
  | k :: ks' => Or (interp k) (alternation ks')
  end.

End Re.
Import Re.

(** ** Exceptions and output *)

Inductive error : Type :=
| KeyError (k : str)            (* [fqcndict[k]] for a missing key *)
| NameError (name : string)     (* reading a name that was never bound *)
| ReError                       (* [re.error] *)
| IndexError (name : string)    (* [match.group] of an unknown group *)
| CalledProcessError (returncode : Z)
| JSONDecodeError
| ValueError.                   (* [PurePath.match] of an empty pattern *)

Inductive result (A : Type) : Type :=
| Ok (a : A)
| Raise (e : error).
Arguments Ok {A} a.
Arguments Raise {A} e.

(** What the script prints or writes, in the order it does so. *)
Inductive event : Type :=
| MsgGenerating                               (* 'we will generate ...' *)
| MsgErrorParsing (modname : str)             (* 'error parsing %s' *)
| MsgNoInformations (modname : str)           (* 'error: no informations' *)
| MsgMapped (modname nonfqcn fqcn : str)      (* '%s : %s -> %s' *)
| CacheWritten (path : str) (content : dict)  (* the dump of the map *)
| MsgMapWritten (path : str)                  (* 'fqcn map written to %s' *)
| MsgParsing (f : str)                        (* 'parsing file %s ' *)
| Symbol (c : char)                           (* the progress mark of a line *)
| LineWritten (f line : str)                  (* [print(nline)] into [f] *)
| MsgEndOfFile                                (* the closing newline *)
| Diff (f : str) (originallines changedlines : list str)
| MsgUpdated (f : str).                       (* 'updated %s' *)

(** A run: the output so far, and a value or the exception that ended it. *)
Definition M (A : Type) : Type := list event * result A.

Definition ret {A} (a : A) : M A := ([], Ok a).
Definition raise {A} (e : error) : M A := ([], Raise e).
Definition emit (e : event) : M unit := ([e], Ok tt).
Definition bind {A B} (m : M A) (f : A -> M B) : M B :=
  match m with
  | (out, Raise e) => (out, Raise e)
  | (out, Ok a) => let (out', r) := f a in (out ++ out', r)
  end.
Definition lift {A} (r : result A) : M A := ([], r).

Declare Scope run_scope.
Delimit Scope run_scope with run.
Notation "x <- m ;; k" := (bind m (fun x => k))
  (at level 61, m at next level, right associativity) : run_scope.
Notation "' pat <- m ;; k" :=
  (bind m (fun x => match x with pat => k end))
  (at level 61, pat pattern, m at next level, right associativity) : run_scope.
Notation "m ;; k" := (bind m (fun _ => k))
  (at level 61, right associativity) : run_scope.
Notation "'when' b 'then' m" := (if b then m else ret tt)
  (at level 60, b at next level) : run_scope.

(** The same for the parts that print nothing. *)
Definition rbind {A B} (r : result A) (f : A -> result B) : result B :=
  match r with
  | Ok a => f a
  | Raise e => Raise e
  end.

Definition rmap {A B} (f : A -> B) (r : result A) : result B :=
  rbind r (fun a => Ok (f a)).

(** [any(p(x) for x in l)]: the tests are made in order, up to the first
    that holds or raises. *)
Fixpoint any {A} (p : A -> result bool) (l : list A) : result bool :=
  match l with
  | [] => Ok false
  | x :: l' => rbind (p x) (fun b => if b then Ok true else any p l')
  end.

(** [b or r]: [r] is evaluated only when [b] is false. *)
Definition orelse (b : bool) (r : result bool) : result bool :=
  if b then Ok true else r.

(** A loop that appends what each turn finds to one list. *)
Fixpoint collect {A B} (f : A -> result (list B)) (l : list A)
  : result (list B) :=
  match l with
  | [] => Ok []
  | x :: l' =>
      rbind (f x) (fun found =>
      rbind (collect f l') (fun found' => Ok (found ++ found')))
  end.

(** ** The line rewriter (lines 210-245) *)

(** Line 211. *)
Definition _fqcnregex (fqcndict : dict) : regex :=
  Cat (Group "white" (Cat (Star Ws) (Cat (Opt (One (Lit c_dash))) (Plus Ws))))
      (Cat (Group "module" (alternation (keys fqcndict)))
           (One (Lit c_colon))).

(** Lines 231-233: the pattern with the captured prefix in place of the
    white space class. *)
Definition locked_regex (white : str) (fqcndict : dict) : regex :=
  Cat (interp white)
      (Cat (Group "module" (alternation (keys fqcndict)))
           (One (Lit c_colon))).

(** The two variables a file's loop carries from line to line. *)
Record rstate : Type := mk_rstate {
  startingwhitespaces : option str;    (* [None] is Python's [False] *)
  fqcnregex : regex
}.

(** Lines 221-222. *)
Definition initial_rstate (fqcndict : dict) : rstate :=
  {| startingwhitespaces := None; fqcnregex := _fqcnregex fqcndict |}.

(** The truth value of [startingwhitespaces]. *)
Definition truthy (sw : option str) : bool :=
  match sw with
  | Some (_ :: _) => true
  | _ => false
  end.

(** ['%s' % startingwhitespaces] *)
Definition format_sw (sw : option str) : str :=
  match sw with
  | Some w => w
  | None => cps "False"
  end.

(** The pattern of line 236: ['^(%s)%s:' % (startingwhitespaces, fqcnmodule)]. *)
Definition sub_pattern (sw : option str) (fqcnmodule : str) : regex :=
  Cat (Group "1" (interp (format_sw sw)))
      (Cat (interp fqcnmodule) (One (Lit c_colon))).

(** The replacement of line 237, ['\\1%s:' % value], as [re] reads it.  A
    digit right after [\1] is taken into the escape: with a second octal
    digit the three digits are an octal character code, otherwise they are
    the number of a group the pattern does not have.  This is the reading
    of a value that holds no backslash: a backslash in the value would start
    an escape of its own, which is not modelled; the statements about values
    ask for values without one (a value of a well-formed map has none). *)
Definition expand_template (value : str) (group1 : str) : result str :=
  match value with
  | c1 :: rest =>
      if is_digit c1 then
        match rest with
        | c2 :: rest' =>
            if is_octdigit c1 && is_octdigit c2
            then Ok ((64 + 8 * (c1 - 48) + (c2 - 48)) :: rest' ++ [c_colon])
            else Raise ReError
        | [] => Raise ReError
        end
      else Ok (group1 ++ value ++ [c_colon])
  | [] => Ok (group1 ++ [c_colon])
  end.

(** [re.sub(pattern, repl, line)] for a pattern anchored with [^]: the
    replacement is read first, then the only possible match, at the start
    of the line, is replaced. *)
Definition re_sub (pattern : regex) (value : str) (line : str) : result str :=
  match re_match pattern line with
  | Some (g, rest) =>
      rbind (expand_template value
               (match group "1" g with Some t => t | None => [] end))
            (fun repl => Ok (repl ++ rest))
  | None => rbind (expand_template value []) (fun _ => Ok line)
  end.

Definition get_group (name : string) (g : groups) : result str :=
  match group name g with
  | Some t => Ok t
  | None => Raise (IndexError name)
  end.

Definition lookup (fqcndict : dict) (k : str) : result str :=
  match dict_get k fqcndict with
  | Some v => Ok v
  | None => Raise (KeyError k)
  end.

(** Lines 226-245 for one line: the state after it, the new line and the
    progress mark. *)
Definition rewrite_line (fqcndict : dict) (st : rstate) (line : str)
  : result (rstate * str * char) :=
  match re_match (fqcnregex st) line with
  | Some (fqcnmatch, _) =>
      rbind (if negb (truthy (startingwhitespaces st))
             then rbind (get_group "white" fqcnmatch) (fun white =>
                    Ok {| startingwhitespaces := Some white;
                          fqcnregex := locked_regex white fqcndict |})
             else Ok st) (fun st' =>
      rbind (get_group "module" fqcnmatch) (fun fqcnmodule =>
      rbind (lookup fqcndict fqcnmodule) (fun value =>
      rbind (re_sub (sub_pattern (startingwhitespaces st') fqcnmodule)
                    value line) (fun nline =>
      Ok (st', nline,
          if str_eqb fqcnmodule value then c_dot else c_star)))))
  | None => Ok (st, line, c_dot)
  end.

(** The new content of a file: the lines of [changedlines], which are also
    the lines printed into the file. *)
Fixpoint rewrite_lines (fqcndict : dict) (st : rstate) (lines : list str)
  : result (list str) :=
  match lines with
  | [] => Ok []
  | line :: lines' =>
      rbind (rewrite_line fqcndict st line) (fun '(st', nline, _) =>
      rbind (rewrite_lines fqcndict st' lines') (fun out =>
      Ok (nline :: out)))
  end.

Definition rewrite_file (fqcndict : dict) (lines : list str)
  : result (list str) :=
  rewrite_lines fqcndict (initial_rstate fqcndict) lines.

(** ** Command line, file system and external commands *)

Module Args.
(** The namespace [argparse] returns (lines 57-120). *)
Record t : Type := mk {
  directory : str;
  fileextensions : list str;
  exclude_paths : list str;
  config : option str;
  writefiles : bool;
  backupextension : str;
  printdiff : bool;
  fqcnmapfile : str;
  updatefqcnmapfile : bool
}.
End Args.

(** The documentation object of a module, as [ansible-doc -j] prints it; the
    script reads two of its fields. *)
Record docobj : Type := mk_docobj {
  collection : option str;
  module : option str
}.

Record moddict : Type := mk_moddict { doc : option docobj }.

(** The JSON object of a detail query, keyed by module identifier. *)
Definition modjson := list (str * moddict).

(** A finished [subprocess.run]: the return code (negative when a signal
    ended the process) and the standard output read as JSON, [None] when it
    is no JSON document. *)
Record completed (A : Type) : Type := mk_completed {
  returncode : Z;
  stdout : option A
}.
Arguments mk_completed {A} returncode stdout.
Arguments returncode {A} c.
Arguments stdout {A} c.

(** A YAML configuration: a mapping from option names to lists of strings. *)
Definition config_doc := list (str * list str).

Fixpoint assoc {V : Type} (k : str) (m : list (str * V)) : option V :=
  match m with
  | [] => None
  | (k', v) :: m' => if str_eqb k k' then Some v else assoc k m'
  end.

(** What the script finds outside of itself. *)
Record World : Type := mk_world {
  (* [open(path)] and [yaml.load] of a mapping of strings; [None] is
     [FileNotFoundError] *)
  read_fqcnmapfile : str -> option dict;
  (* [ansible-doc -lj]: the keys of the object it prints *)
  ansible_doc_lj : completed (list str);
  (* [ansible-doc -j modname] *)
  ansible_doc_j : str -> completed modjson;
  read_config : str -> option config_doc;
  (* [os.walk(top)]: the triples [(dirpath, dirnames, files)] *)
  os_walk : str -> list (str * list str * list str);
  (* the lines of a file, each with its line end *)
  read_lines : str -> list str
}.

(** The library functions on paths; they depend on the platform and on the
    working directory. *)
Class OsPath : Type := {
  abspath : str -> str;                   (* [os.path.abspath] *)
  join : str -> str -> str;               (* [os.path.join] *)
  lower : str -> str;                     (* [str.lower] *)
  (* [PurePath(path).match(ep)]; [None] is the [ValueError] it raises for
     a pattern without parts, such as the empty text or a single dot *)
  purepath_match : str -> str -> option bool;
  fnmatch : str -> str -> bool;           (* [fnmatch.fnmatch(path, ep)] *)
  fnmatch_purepath : str -> str -> bool   (* the same on [PurePath(path)] *)
}.

(** ** The mapping builder (lines 122-177) *)

(** [s.split('.')] *)
Fixpoint split_dot (s : str) : list str :=
  match s with
  | [] => [[]]
  | c :: s' =>
      if c =? c_dot then [] :: split_dot s'
      else match split_dot s' with
           | seg :: segs => (c :: seg) :: segs
           | [] => [[c]]
           end
  end.

Definition json_loads {A} (out : option A) : result A :=
  match out with
  | Some j => Ok j
  | None => Raise JSONDecodeError
  end.

(** Lines 141-159: one turn of the loop over the module identifiers. *)
Definition generate_one (w : World) (fqcndict : dict) (modname : str)
  : M dict :=
  (let modpr := ansible_doc_j w modname in
   if (returncode modpr >? 0)%Z then
     emit (MsgErrorParsing modname) ;; ret fqcndict
   else
     modjson <- lift (json_loads (stdout modpr)) ;;
     match modjson, assoc modname modjson with
     | [], _ | _, None =>
         emit (MsgNoInformations modname) ;; ret fqcndict
     | _, Some moddict =>
         match doc moddict with
         | Some d =>
             match collection d, module d with
             | Some c, Some m =>
                 let fqcn := c ++ [c_dot] ++ m in
                 let nonfqcn := last (split_dot fqcn) [] in
                 emit (MsgMapped modname nonfqcn fqcn) ;;
                 ret (dict_set nonfqcn fqcn fqcndict)
             | _, _ => ret fqcndict
             end
         | None => ret fqcndict
         end
     end)%run.

Fixpoint generate_loop (w : World) (fqcndict : dict) (modnames : list str)
  : M dict :=
  match modnames with
  | [] => ret fqcndict
  | modname :: rest =>
      (d <- generate_one w fqcndict modname ;; generate_loop w d rest)%run
  end.

(** Lines 131-173.  [check = True] raises on every return code but 0. *)
Definition generate (a : Args.t) (w : World) (fqcndict : dict) : M dict :=
  (emit MsgGenerating ;;
   let modulespr := ansible_doc_lj w in
   if negb (returncode modulespr =? 0)%Z then
     raise (CalledProcessError (returncode modulespr))
   else
     modulesdict <- lift (json_loads (stdout modulespr)) ;;
     d <- generate_loop w fqcndict modulesdict ;;
     emit (CacheWritten (Args.fqcnmapfile a) d) ;;
     emit (MsgMapWritten (Args.fqcnmapfile a)) ;;
     ret d)%run.

(** Lines 122-177: load the cache, generate when there is none or an update
    was asked for, then add the self-mappings. *)
Definition build (a : Args.t) (w : World) : M dict :=
  (let '(fqcndict, fqcnmapfile) :=
     match read_fqcnmapfile w (Args.fqcnmapfile a) with
     | Some d => (d, true)
     | None => ([], false)
     end in
   d <- (if negb fqcnmapfile || Args.updatefqcnmapfile a
         then generate a w fqcndict else ret fqcndict) ;;
   ret (add_self_mappings d))%run.

(** ** Exclusions and file discovery (lines 22-55, 179-208) *)

Section Paths.
Context `{OsPath}.

(** Lines 22-37.  Of the five tests only [ppath.match(ep)] can raise; it
    is reached when the two tests before it are false. *)
Definition isexcluded (path : str) (_exclude_paths : list str)
  : result bool :=
  let ppath := path in
  let path := abspath path in
  any (fun ep =>
         orelse (startswith path ep)
        (orelse (startswith path (abspath ep))
           match purepath_match ppath ep with
           | None => Raise ValueError
           | Some m => Ok (m || fnmatch path ep || fnmatch_purepath ppath ep)
           end))
      _exclude_paths.

(** Lines 42-55. *)
Definition _general_exclude_paths : list str :=
  map cps [".cache"; ".git"; ".hg"; ".svn"; ".tox"; ".collections";
           "*/.github/*"; "*/molecule/*"; "*/group_vars/*";
           "*/host_vars/*"; "*/vars/*"; "*/defaults/*"]%string.

(** Lines 180-183. *)
Definition initial_exclude_paths (a : Args.t) : list str :=
  (Args.exclude_paths a ++ _general_exclude_paths) ++ [Args.fqcnmapfile a].

(** The two names lines 186-193 use: [config], which line 186 binds, and
    [_config], which only line 190 binds.  [None] is a name not bound. *)
Record names : Type := mk_names {
  config : option bool;
  _config : option config_doc
}.

(** Lines 186-192. *)
Definition load_config (a : Args.t) (w : World) : names :=
  let ns := {| config := Some false; _config := None |} in
  match Args.config a with
  | Some (c :: p) =>
      match read_config w (c :: p) with
      | Some yml => {| config := config ns; _config := Some yml |}
      | None => ns                       (* [FileNotFoundError]: pass *)
      end
  | _ => ns
  end.

(** Lines 193-195. *)
Definition config_exclude_paths (ns : names) (exclude_paths : list str)
  : result (list str) :=
  match _config ns with
  | None => Raise (NameError "_config")
  | Some [] => Ok exclude_paths
  | Some yml =>
      match assoc (cps "exclude_paths") yml with
      | Some eps => Ok (exclude_paths ++ map abspath eps)
      | None => Ok exclude_paths
      end
  end.

(** Lines 203-208: the loop over the extensions for one file name. *)
Fixpoint extensions_loop (exclude_paths : list str) (dirpath name : str)
    (exts : list str) : result (list str) :=
  match exts with
  | [] => Ok []
  | ext :: exts' =>
      if endswith (lower name) (lower ext) then
        let f := join dirpath name in
        rbind (isexcluded f exclude_paths) (fun excluded =>
        if excluded then Ok []                         (* break *)
        else rmap (cons f)
                  (extensions_loop exclude_paths dirpath name exts'))
      else extensions_loop exclude_paths dirpath name exts'
  end.

(** Lines 198-208. *)
Definition find_files (a : Args.t) (w : World) (exclude_paths : list str)
  : result (list str) :=
  collect (fun '(dirpath, _, files) =>
             rbind (isexcluded dirpath exclude_paths) (fun excluded =>
             if excluded then Ok []                    (* continue *)
             else collect (fun name =>
                    extensions_loop exclude_paths dirpath name
                      (Args.fileextensions a)) files))
          (os_walk w (abspath (Args.directory a))).

(** ** The loop over the files (lines 214-261) *)

(** The files as the run has left them so far. *)
Definition filesystem := str -> list str.

Definition write_file (fs : filesystem) (f : str) (lines : list str)
  : filesystem :=
  fun p => if str_eqb p f then lines else fs p.

(** Lines 223-250 over the lines still to read; the result is
    [changedlines] and the state the loop ends in. *)
Fixpoint process_lines (a : Args.t) (fqcndict : dict) (f : str)
    (st : rstate) (lines : list str) : M (list str * rstate) :=
  match lines with
  | [] => ret ([], st)
  | line :: lines' =>
      ('(st', nline, mark) <- lift (rewrite_line fqcndict st line) ;;
       emit (Symbol mark) ;;
       when (Args.writefiles a) then emit (LineWritten f nline) ;;
       '(out, st'') <- process_lines a fqcndict f st' lines' ;;
       ret (nline :: out, st''))%run
  end.

(** Lines 215-261 for one file.  [startingwhitespaces] and [fqcnregex] are
    names of the module: what the file before left in them is still there
    when the next file starts ([vars], [None] before the first file), and
    lines 221-222 assign them anew. *)
Definition process_file (a : Args.t) (fqcndict : dict) (fs : filesystem)
    (vars : option rstate) (f : str) : M (filesystem * option rstate) :=
  (emit (MsgParsing f) ;;
   let lines := fs f in
   let vars := Some (initial_rstate fqcndict) in
   '(changed, st) <- process_lines a fqcndict f (initial_rstate fqcndict)
                       lines ;;
   let vars := Some st in
   emit MsgEndOfFile ;;
   when (Args.printdiff a) then emit (Diff f lines changed) ;;
   when (Args.writefiles a) then emit (MsgUpdated f) ;;
   ret (if Args.writefiles a then write_file fs f changed else fs,
        vars))%run.

Fixpoint process_files (a : Args.t) (fqcndict : dict) (fs : filesystem)
    (vars : option rstate) (parsefiles : list str) : M filesystem :=
  match parsefiles with
  | [] => ret fs
  | f :: rest =>
      ('(fs', vars') <- process_file a fqcndict fs vars f ;;
       process_files a fqcndict fs' vars' rest)%run
  end.

(** ** The whole script *)

Definition main (a : Args.t) (w : World) : M filesystem :=
  (fqcndict <- build a w ;;
   let exclude_paths := initial_exclude_paths a in
   let ns := load_config a w in
   exclude_paths <- lift (config_exclude_paths ns exclude_paths) ;;
   parsefiles <- lift (find_files a w exclude_paths) ;;
   process_files a fqcndict (read_lines w) None parsefiles)%run.

(** The files of a run: what discovery gives when the run gets there. *)
Definition parsefiles_of (a : Args.t) (w : World) : list str :=
  match config_exclude_paths (load_config a w) (initial_exclude_paths a) with
  | Ok excl =>
      match find_files a w excl with
      | Ok parsefiles => parsefiles
      | Raise _ => []
      end
  | Raise _ => []
  end.

(** A run without a configuration file: [_config] is read but was never
    bound. *)
Definition config_absent (a : Args.t) (w : World) : Prop :=
  match Args.config a with
  | None => True
  | Some p => read_config w p = None
  end.

End Paths.

(** ** Vocabulary of the statements *)

(** A character of a module name: a letter, a digit or an underscore. *)
Definition ident_char (c : char) : bool := is_letter c || is_digit c.

(** A key of the module map as the data model has it: a short module name or
    a dotted collection name; it starts with a character of a name. *)
Definition wf_key (k : str) : bool :=
  match k with
  | c :: k' => ident_char c && forallb (fun x => ident_char x || (x =? c_dot)) k'
  | [] => false
  end.

Definition wf_keys (d : dict) : bool := forallb wf_key (keys d).

(** A value of the module map: a collection name, which starts with a
    letter or an underscore. *)
Definition wf_value (v : str) : bool :=
  match v with
  | c :: _ => is_letter c && wf_key v
  | [] => false
  end.

Definition wf_map (d : dict) : bool :=
  forallb (fun kv => wf_key (fst kv) && wf_value (snd kv)) d.

(** What lines 176-177 establish: every value is a key of its own. *)
Definition self_mapped (d : dict) : Prop :=
  forall k v, dict_get k d = Some v -> dict_get v d = Some v.

(** The characters a captured prefix is made of. *)
Definition white_char (c : char) : bool := is_space c || (c =? c_dash).

Definition white_text (w : str) : bool :=
  match w with
  | [] => false
  | _ => forallb white_char w
  end.

(** The white space and dashes a line starts with. *)
Fixpoint white_prefix (line : str) : str :=
  match line with
  | c :: line' => if white_char c then c :: white_prefix line' else []
  | [] => []
  end.

(** The texts of the class [\s*-?\s+] of line 211. *)
Definition white_lang (w : str) : Prop :=
  exists w1 w2,
    forallb is_space w1 = true /\ forallb is_space w2 = true /\ w2 <> [] /\
    (w = w1 ++ w2 \/ w = w1 ++ c_dash :: w2).

(** The state of a file's loop once the prefix [w] is captured. *)
Definition locked_rstate (w : str) (fqcndict : dict) : rstate :=
  {| startingwhitespaces := Some w; fqcnregex := locked_regex w fqcndict |}.

(** The test [if fqcnmatch:] of line 228. *)
Definition is_matched (st : rstate) (line : str) : bool :=
  match re_match (fqcnregex st) line with
  | Some _ => true
  | None => false
  end.

(** The module token of a matching line. *)
Definition matched_token (st : rstate) (line : str) : option str :=
  match re_match (fqcnregex st) line with
  | Some (g, _) => group "module" g
  | None => None
  end.

(** The interpolated text [t] read against the start of [s]: what is left
    of [s] when every character of [t] matches in turn. *)
Fixpoint match_text (t s : str) : option str :=
  match t with
  | [] => Some s
  | c :: t' =>
      match s with
      | x :: s' => if atom_match (atom_of_char c) x then match_text t' s' else None
      | [] => None
      end
  end.

(** The alternatives of ['|'.join(ks)]: the keys, or the empty text alone. *)
Definition alternatives (ks : list str) : list str :=
  match ks with
  | [] => [[]]
  | _ => ks
  end.

(** The keys tried in order against [s], each followed by [k]. *)
Fixpoint try_keys {A} (ks : list str) (s : str) (k : str -> option A)
  : option A :=
  match ks with
  | [] => None
  | key :: ks' =>
      match match match_text key s with
            | Some s' => k s'
            | None => None
            end with
      | Some x => Some x
      | None => try_keys ks' s k
      end
  end.

(** What follows the test of line 228, once the prefix [w] and the token
    [tok] of the match are known. *)
Definition rewrite_matched (d : dict) (w tok rest : str)
  : result (rstate * str * char) :=
  match dict_get tok d with
  | None => Raise (KeyError tok)
  | Some value =>
      match expand_template value w with
      | Ok repl =>
          Ok (locked_rstate w d, repl ++ rest,
              if str_eqb tok value then c_dot else c_star)
      | Raise e => Raise e
      end
  end.

(** One turn of the loop of lines 176-177. *)
Definition self_map (d : dict) (fqcn : str) : dict := dict_set fqcn fqcn d.

(** The states a file's loop goes through. *)
Inductive reachable (d : dict) : rstate -> Prop :=
| reach_initial : reachable d (initial_rstate d)
| reach_locked (w : str) : white_text w = true -> reachable d (locked_rstate w d).

(** [tok] is [key] but for characters in the place of dots of [key]. *)
Fixpoint differs_at_dots (key tok : str) : bool :=
  match key, tok with
  | [], [] => true
  | c :: key', x :: tok' =>
      ((x =? c) || (c =? c_dot)) && differs_at_dots key' tok'
  | _, _ => false
  end.

(** The mark of a line, read off the match and the map. *)
Definition mark_of (d : dict) (st : rstate) (line : str) : char :=
  match matched_token st line with
  | Some tok =>
      match dict_get tok d with
      | Some value => if str_eqb tok value then c_dot else c_star
      | None => c_dot
      end
  | None => c_dot
  end.

(** What a run printed and wrote, and how it ended. *)
Definition events {A} (m : M A) : list event := fst m.
Definition outcome {A} (m : M A) : result A := snd m.

(** The file an output is about, when it is about a file under rewrite. *)
Definition file_of (e : event) : option str :=
  match e with
  | MsgParsing f | LineWritten f _ | Diff f _ _ | MsgUpdated f => Some f
  | _ => None
  end.

(** [e] is about no file but those of [files]. *)
Definition touches (files : list str) (e : event) : Prop :=
  match file_of e with
  | Some f => In f files
  | None => True
  end.

(** The progress marks among what a run printed, in order. *)
Definition marks (out : list event) : list char :=
  flat_map (fun e => match e with Symbol c => [c] | _ => [] end) out.

(** The lines a run printed into the file [f], in order. *)
Definition written (f : str) (out : list event) : list str :=
  flat_map (fun e => match e with
                     | LineWritten f' l => if str_eqb f' f then [l] else []
                     | _ => []
                     end) out.

(** The files a run started to parse, in order. *)
Definition parsed (out : list event) : list str :=
  flat_map (fun e => match e with MsgParsing f => [f] | _ => [] end) out.

(** An output that changes a task file, or says it did. *)
Definition writes_task_file (e : event) : bool :=
  match e with
  | LineWritten _ _ | MsgUpdated _ => true
  | _ => false
  end.

(** The maps a run dumped into the map file, in order. *)
Definition cache_writes (out : list event) : list dict :=
  flat_map (fun e => match e with CacheWritten _ d => [d] | _ => [] end) out.

Definition has_dot (s : str) : bool := existsb (N.eqb c_dot) s.

(** [k in d] *)
Definition dict_mem (k : str) (d : dict) : bool := existsb (str_eqb k) (keys d).

(** The extensions of [exts] the name ends with, as line 204 tests it. *)
Definition matching_extensions `{OsPath} (name : str) (exts : list str)
  : list str :=
  filter (fun ext => endswith (lower name) (lower ext)) exts.

(** A line that is empty or starts with a character that is neither white
    space nor a dash. *)
Definition unindented (line : str) : bool :=
  match line with
  | [] => true
  | c :: _ => negb (white_char c)
  end.

(** Two maps with the same entries, in whatever order. *)
Definition same_entries (d d' : dict) : Prop :=
  forall k, dict_get k d = dict_get k d'.

(** The same, checked on the keys of the two maps. *)
Definition agree_on (d d' : dict) (k : str) : bool :=
  match dict_get k d, dict_get k d' with
  | Some v, Some v' => str_eqb v v'
  | None, None => true
  | _, _ => false
  end.

Definition same_entriesb (d d' : dict) : bool :=
  forallb (agree_on d d') (keys d ++ keys d').

(** The states of the loops of two runs over the same file, one with the
    map [d] and one with [d']: both before the first match, or both with
    the same captured prefix. *)
Definition paired (d d' : dict) (st st' : rstate) : Prop :=
  (st = initial_rstate d /\ st' = initial_rstate d')
  \/ exists w, white_text w = true
               /\ st = locked_rstate w d /\ st' = locked_rstate w d'.

(** ** Example data *)

(** The cache [{command: ansible.builtin.command}] after lines 176-177. *)
Definition command_map : dict :=
  add_self_mappings [(cps "command", cps "ansible.builtin.command")].

(** The cache [{foo: ns.coll.foo}], and the map lines 176-177 make of it. *)
Definition foo_cache : dict := [(cps "foo", cps "ns.coll.foo")].

Definition foo_map : dict := add_self_mappings foo_cache.

(** A cache with a collection name that continues another one, in the
    sorted order the script writes it in. *)
Definition sub_map : dict :=
  add_self_mappings [(cps "mod", cps "ns.coll.sub.mod");
                     (cps "sub", cps "ns.coll.sub")].

(** Example arguments: the defaults, with the files written back. *)
Definition write_args : Args.t :=
  {| Args.directory := cps ".";
     Args.fileextensions := [cps "yml"; cps "yaml"];
     Args.exclude_paths := [];
     Args.config := None;
     Args.writefiles := true;
     Args.backupextension := cps ".bak";
     Args.printdiff := true;
     Args.fqcnmapfile := cps "/opt/fqcn/fqcn.yml";
     Args.updatefqcnmapfile := false |}.

(** A file system with the one file [tasks.yml]. *)
Definition one_file (lines : list str) : filesystem :=
  fun p => if str_eqb p (cps "tasks.yml") then lines else [].

(** Absolute paths, joined with a slash, and patterns that match nothing. *)
Definition posix : OsPath :=
  {| abspath := fun p => p;
     join := fun d n => d ++ cps "/" ++ n;
     lower := fun s => s;
     purepath_match := fun _ _ => Some false;
     fnmatch := fun _ _ => false;
     fnmatch_purepath := fun _ _ => false |}.

(** A directory with the map file and one task file; the listing command
    ends with [rc], every detail query with [detail]. *)
Definition example_world (cache : option dict) (rc : Z)
    (detail : completed modjson) : World :=
  {| read_fqcnmapfile := fun _ => cache;
     ansible_doc_lj := {| returncode := rc;
                          stdout := Some [cps "foo"; cps "bar"] |};
     ansible_doc_j := fun _ => detail;
     read_config := fun _ => Some [];
     os_walk := fun top => [(top, [], [cps "fqcn.yml"; cps "tasks.yml"])];
     read_lines := fun p =>
       if str_eqb p (cps "/opt/fqcn/tasks.yml")
       then [cps "- foo:" ++ [c_newline]] else [] |}.

Definition no_detail : completed modjson :=
  {| returncode := 0; stdout := Some [] |}.

(** The documentation of the module [foo] of the collection [ns.coll]. *)
Definition foo_detail : modjson :=
  [(cps "foo",
    {| doc := Some {| collection := Some (cps "ns.coll");
                      module := Some (cps "foo") |} |})].

(** The arguments of a run over [/opt/fqcn] with a configuration file. *)
Definition scan_args : Args.t :=
  {| Args.directory := cps "/opt/fqcn";
     Args.fileextensions := [cps "yml"; cps "yaml"];
     Args.exclude_paths := [];
     Args.config := Some (cps "/opt/fqcn/.ansible-lint");
     Args.writefiles := true;
     Args.backupextension := cps ".bak";
     Args.printdiff := true;
     Args.fqcnmapfile := cps "/opt/fqcn/fqcn.yml";
     Args.updatefqcnmapfile := false |}.

(** ** Tactics *)

Ltac to_prop :=
  repeat match goal with
  | H : _ && _ = true |- _ => apply andb_true_iff in H; destruct H
  | H : _ || _ = true |- _ => apply orb_true_iff in H; destruct H
  | H : (_ <=? _) = true |- _ => apply N.leb_le in H
  | H : (_ =? _) = true |- _ => apply N.eqb_eq in H
  end.

(** ** Basic facts about text and maps *)

Lemma str_eqb_refl (a : str) : str_eqb a a = true.
Proof.
  induction a as [|x a IH]; simpl; [reflexivity|].
  now rewrite N.eqb_refl.
Qed.

Lemma str_eqb_eq (a b : str) : str_eqb a b = true <-> a = b.
Proof.
  split; [|intros ->; apply str_eqb_refl].
  revert b; induction a as [|x a IH]; intros [|y b]; simpl; try discriminate.
  - reflexivity.
  - intros H. apply andb_true_iff in H as [Hx Hab].
    apply N.eqb_eq in Hx. now rewrite Hx, (IH b Hab).
Qed.

Lemma str_eqb_neq (a b : str) : str_eqb a b = false <-> a <> b.
Proof.
  split.
  - intros H E. apply str_eqb_eq in E. congruence.
  - intros H. destruct (str_eqb a b) eqn:E; [|reflexivity].
    apply str_eqb_eq in E. contradiction.
Qed.

Lemma startswith_app (p s : str) : startswith (p ++ s) p = true.
Proof.
  induction p as [|x p IH]; simpl; [reflexivity|].
  now rewrite N.eqb_refl.
Qed.

Lemma startswith_refl (s : str) : startswith s s = true.
Proof.
  rewrite <- (app_nil_r s) at 1. apply startswith_app.
Qed.

Lemma startswith_split (s p : str) :
  startswith s p = true -> exists r, s = p ++ r.
Proof.
  revert s; induction p as [|y p IH]; intros s H.
  - now exists s.
  - destruct s as [|x s]; simpl in H; [discriminate|].
    apply andb_true_iff in H as [Hx Hs]. apply N.eqb_eq in Hx. subst y.
    destruct (IH s Hs) as [r ->]. now exists r.
Qed.

Lemma firstn_consumed (w s : str) :
  firstn (List.length (w ++ s) - List.length s)%nat (w ++ s) = w.
Proof.
  rewrite length_app.
  replace (List.length w + List.length s - List.length s)%nat
    with (List.length w + 0)%nat by lia.
  rewrite firstn_app_2. simpl. apply app_nil_r.
Qed.

Lemma dict_get_set_same (k v : str) (d : dict) :
  dict_get k (dict_set k v d) = Some v.
Proof.
  induction d as [|[k' v'] d IH]; simpl.
  - now rewrite str_eqb_refl.
  - destruct (str_eqb k k') eqn:E; simpl; rewrite E; [reflexivity|exact IH].
Qed.

Lemma dict_get_set_other (k k0 v : str) (d : dict) :
  k0 <> k -> dict_get k0 (dict_set k v d) = dict_get k0 d.
Proof.
  intros Hne. induction d as [|[k' v'] d IH]; simpl.
  - apply str_eqb_neq in Hne. now rewrite Hne.
  - destruct (str_eqb k k') eqn:E; simpl.
    + apply str_eqb_eq in E. subst k'.
      apply str_eqb_neq in Hne. now rewrite Hne.
    + now rewrite IH.
Qed.

Lemma dict_get_In (k v : str) (d : dict) :
  dict_get k d = Some v -> In (k, v) d.
Proof.
  induction d as [|[k' v'] d IH]; simpl; [discriminate|].
  destruct (str_eqb k k') eqn:E.
  - apply str_eqb_eq in E. intros [= ->]. left. now subst.
  - intros H. right. now apply IH.
Qed.

Lemma dict_get_keys (k v : str) (d : dict) :
  dict_get k d = Some v -> In k (keys d).
Proof.
  intros H. apply dict_get_In in H. unfold keys.
  change k with (fst (k, v)). now apply in_map.
Qed.

Lemma keys_dict_get (k : str) (d : dict) :
  In k (keys d) -> exists v, dict_get k d = Some v.
Proof.
  induction d as [|[k' v'] d IH]; simpl; [contradiction|].
  intros [E|H].
  - subst k'. rewrite str_eqb_refl. now exists v'.
  - destruct (str_eqb k k'); [now exists v'|now apply IH].
Qed.

(** ** The matcher on the patterns of the script *)

Lemma bt_interp {A} (t s : str) (g : groups) (k : str -> groups -> option A) :
  bt (interp t) s g k =
  match match_text t s with
  | Some s' => k s' g
  | None => None
  end.
Proof.
  revert s; induction t as [|c t IH]; intros s; simpl; [reflexivity|].
  destruct s as [|x s]; [reflexivity|].
  destruct (atom_match (atom_of_char c) x); [apply IH|reflexivity].
Qed.

Lemma bt_alternation {A} (ks : list str) (s : str) (g : groups)
    (k : str -> groups -> option A) :
  bt (alternation ks) s g k = try_keys (alternatives ks) s (fun s' => k s' g).
Proof.
  induction ks as [|k1 ks IH].
  - simpl. now destruct (k s g).
  - destruct ks as [|k2 ks].
    + simpl alternation. rewrite bt_interp. simpl.
      now destruct (match match_text k1 s with Some s' => k s' g | None => None end).
    + change (alternation (k1 :: k2 :: ks))
        with (Or (interp k1) (alternation (k2 :: ks))).
      remember (alternation (k2 :: ks)) as r eqn:Er.
      simpl bt. rewrite bt_interp, IH. reflexivity.
Qed.

Lemma match_text_sound (t s s' : str) :
  match_text t s = Some s' ->
  exists tok, s = tok ++ s' /\ match_text t tok = Some [].
Proof.
  revert s; induction t as [|c t IH]; intros s; simpl.
  - intros [= ->]. now exists [].
  - destruct s as [|x s]; [discriminate|].
    destruct (atom_match (atom_of_char c) x) eqn:E; [|discriminate].
    intros H. destruct (IH s H) as (tok & -> & Ht).
    exists (x :: tok). simpl. now rewrite E.
Qed.

Lemma match_text_app (t tok s : str) :
  match_text t tok = Some [] -> match_text t (tok ++ s) = Some s.
Proof.
  revert tok; induction t as [|c t IH]; intros tok; simpl.
  - now intros [= ->].
  - destruct tok as [|x tok]; [discriminate|]. simpl.
    destruct (atom_match (atom_of_char c) x); [apply IH|discriminate].
Qed.

Lemma match_text_length (t tok : str) :
  match_text t tok = Some [] -> List.length tok = List.length t.
Proof.
  revert tok; induction t as [|c t IH]; intros tok; simpl.
  - now intros [= ->].
  - destruct tok as [|x tok]; [discriminate|]. simpl.
    destruct (atom_match (atom_of_char c) x); [|discriminate].
    intros H. now rewrite (IH tok H).
Qed.

(** A pattern character always matches the character it was written with. *)
Lemma atom_of_char_self (c : char) : atom_match (atom_of_char c) c = true.
Proof.
  unfold atom_of_char. destruct (c =? c_dot) eqn:E; simpl.
  - apply N.eqb_eq in E. now subst c.
  - apply N.eqb_refl.
Qed.

Lemma match_text_self (t s : str) : match_text t (t ++ s) = Some s.
Proof.
  induction t as [|c t IH]; simpl; [reflexivity|].
  now rewrite atom_of_char_self.
Qed.

Lemma white_char_literal (c x : char) :
  white_char c = true -> atom_match (atom_of_char c) x = true -> x = c.
Proof.
  unfold atom_of_char. intros Hw.
  destruct (c =? c_dot) eqn:E.
  - apply N.eqb_eq in E. subst c. discriminate Hw.
  - simpl. apply N.eqb_eq.
Qed.

(** A captured prefix matches as the literal text it is. *)
Lemma match_text_white (w s s' : str) :
  forallb white_char w = true -> match_text w s = Some s' -> s = w ++ s'.
Proof.
  revert s; induction w as [|c w IH]; intros s Hw; simpl.
  - now intros [= ->].
  - simpl in Hw. apply andb_true_iff in Hw as [Hc Hw].
    destruct s as [|x s]; [discriminate|].
    destruct (atom_match (atom_of_char c) x) eqn:E; [|discriminate].
    intros H. apply (white_char_literal _ _ Hc) in E. subst x.
    now rewrite (IH s Hw H).
Qed.

Lemma try_keys_sound {A} (ks : list str) (s : str) (k : str -> option A) x :
  try_keys ks s k = Some x ->
  exists key s', In key ks /\ match_text key s = Some s' /\ k s' = Some x.
Proof.
  induction ks as [|k1 ks IH]; simpl; [discriminate|].
  destruct (match_text k1 s) as [s'|] eqn:E.
  - destruct (k s') as [y|] eqn:Ek.
    + intros [= ->]. exists k1, s'. auto.
    + intros H. destruct (IH H) as (key & s2 & Hin & Hm & Hk).
      exists key, s2. auto.
  - intros H. destruct (IH H) as (key & s2 & Hin & Hm & Hk).
    exists key, s2. auto.
Qed.

Lemma star_bt_sound {A} (a : atom) (s : str) (k : str -> option A) x :
  star_bt a s k = Some x ->
  exists w s', s = w ++ s' /\ forallb (atom_match a) w = true /\ k s' = Some x.
Proof.
  induction s as [|c s IH]; simpl.
  - intros H. now exists [], [].
  - destruct (atom_match a c) eqn:E.
    + destruct (star_bt a s k) as [y|] eqn:Es.
      * intros [= ->]. destruct (IH eq_refl) as (w & s' & -> & Hw & Hk).
        exists (c :: w), s'. simpl. rewrite E. auto.
      * intros H. now exists [], (c :: s).
    + intros H. now exists [], (c :: s).
Qed.

Lemma plus_bt_sound {A} (a : atom) (s : str) (g : groups)
    (k : str -> groups -> option A) x :
  bt (Plus a) s g k = Some x ->
  exists w s', s = w ++ s' /\ w <> [] /\ forallb (atom_match a) w = true
               /\ k s' g = Some x.
Proof.
  simpl. destruct s as [|c s]; [discriminate|].
  destruct (atom_match a c) eqn:E; [|discriminate].
  intros H. apply star_bt_sound in H as (w & s' & -> & Hw & Hk).
  exists (c :: w), s'. simpl. rewrite E. repeat split; auto. discriminate.
Qed.

Lemma white_text_app_r (w1 w2 : str) :
  forallb white_char w1 = true -> w2 <> [] -> forallb white_char w2 = true ->
  white_text (w1 ++ w2) = true.
Proof.
  intros H1 Hne H2. unfold white_text.
  destruct (w1 ++ w2) eqn:E.
  - apply app_eq_nil in E as [_ E]. contradiction.
  - rewrite <- E, forallb_app, H1, H2. reflexivity.
Qed.

Lemma white_text_forallb (w : str) :
  white_text w = true -> forallb white_char w = true.
Proof. destruct w; [discriminate|auto]. Qed.

Lemma opt_dash_sound {A} (r : regex) (s : str) (g : groups)
    (k : str -> groups -> option A) x :
  bt (Cat (Opt (One (Lit c_dash))) r) s g k = Some x ->
  (exists s', s = c_dash :: s' /\ bt r s' g k = Some x) \/ bt r s g k = Some x.
Proof.
  change (bt (Cat (Opt (One (Lit c_dash))) r) s g k)
    with (match bt (One (Lit c_dash)) s g (fun s1 g1 => bt r s1 g1 k) with
          | Some y => Some y
          | None => bt r s g k
          end).
  destruct (bt (One (Lit c_dash)) s g (fun s1 g1 => bt r s1 g1 k))
    as [y|] eqn:E; [|now right].
  intros [= ->]. left.
  destruct s as [|c s]; [discriminate|].
  change (bt (One (Lit c_dash)) (c :: s) g (fun s1 g1 => bt r s1 g1 k))
    with (if c =? c_dash then bt r s g k else None) in E.
  destruct (c =? c_dash) eqn:Ec; [|discriminate].
  apply N.eqb_eq in Ec. subst c. now exists s.
Qed.

Lemma forallb_space_white (w : str) :
  forallb is_space w = true -> forallb white_char w = true.
Proof.
  induction w as [|c w IH]; simpl; [reflexivity|].
  intros H. apply andb_true_iff in H as [Hc Hw].
  unfold white_char. rewrite Hc. simpl. now apply IH.
Qed.

Lemma white_lang_text (w : str) : white_lang w -> white_text w = true.
Proof.
  intros (w1 & w2 & H1 & H2 & Hne & [-> | ->]);
    apply forallb_space_white in H1; apply forallb_space_white in H2.
  - now apply white_text_app_r.
  - apply white_text_app_r; [exact H1|discriminate|exact H2].
Qed.

(** The class of the prefix, [\s*-?\s+]: whatever split the matcher settles
    on, the text it consumed is white space with at most one dash in it and
    none at its end. *)
Lemma white_class_sound {A} (s : str) (g : groups)
    (k : str -> groups -> option A) x :
  bt (Cat (Star Ws) (Cat (Opt (One (Lit c_dash))) (Plus Ws))) s g k = Some x ->
  exists w s', s = w ++ s' /\ white_lang w /\ k s' g = Some x.
Proof.
  change (bt (Cat (Star Ws) (Cat (Opt (One (Lit c_dash))) (Plus Ws))) s g k)
    with (star_bt Ws s (fun sa =>
            bt (Cat (Opt (One (Lit c_dash))) (Plus Ws)) sa g k)).
  intros H.
  apply star_bt_sound in H as (w1 & sa & -> & Hw1 & H).
  apply opt_dash_sound in H as [(sa' & -> & H)|H];
    apply plus_bt_sound in H as (w2 & s' & -> & Hne & Hw2 & Hk).
  - exists (w1 ++ c_dash :: w2), s'.
    split; [now rewrite <- app_assoc|]. split; [|exact Hk].
    exists w1, w2. auto.
  - exists (w1 ++ w2), s'.
    split; [now rewrite <- app_assoc|]. split; [|exact Hk].
    exists w1, w2. auto.
Qed.

(** The module group and the colon after it, common to both patterns. *)
Lemma module_tail_sound (d : dict) (s1 : str) (g1 g : groups) (rest : str) :
  bt (Cat (Group "module" (alternation (keys d))) (One (Lit c_colon))) s1 g1
     (fun rest g => Some (g, rest)) = Some (g, rest) ->
  exists tok key,
    s1 = tok ++ c_colon :: rest /\ In key (alternatives (keys d)) /\
    match_text key tok = Some [] /\ g = ("module"%string, tok) :: g1.
Proof.
  remember (alternation (keys d)) as r eqn:Er.
  simpl bt. subst r. rewrite bt_alternation. intros H.
  apply try_keys_sound in H as (key & s2 & Hin & Hm & H).
  apply match_text_sound in Hm as (tok & -> & Hm).
  rewrite firstn_consumed in H.
  destruct s2 as [|c s3]; [discriminate|].
  destruct (c =? c_colon) eqn:Ec; [|discriminate].
  apply N.eqb_eq in Ec. subst c. injection H as <- <-.
  exists tok, key. auto.
Qed.

(** A match of the first pattern: a prefix of white space and dash, a token
    that one of the keys matches as a pattern, a colon. *)
Lemma unlocked_match_sound (d : dict) (line : str) (g : groups) (rest : str) :
  re_match (_fqcnregex d) line = Some (g, rest) ->
  exists w tok key,
    line = w ++ tok ++ c_colon :: rest /\ white_lang w /\
    In key (alternatives (keys d)) /\ match_text key tok = Some [] /\
    g = [("module"%string, tok); ("white"%string, w)].
Proof.
  unfold re_match, _fqcnregex.
  remember (Cat (Group "module" (alternation (keys d))) (One (Lit c_colon)))
    as tail eqn:Et.
  remember (Cat (Star Ws) (Cat (Opt (One (Lit c_dash))) (Plus Ws)))
    as white eqn:Ew.
  simpl bt. subst white. intros H.
  apply white_class_sound in H as (w & s1 & -> & Hw & H).
  rewrite firstn_consumed in H. subst tail.
  apply module_tail_sound in H as (tok & key & -> & Hin & Hm & ->).
  exists w, tok, key. auto.
Qed.

(** A match of the second pattern: the captured prefix as it is, then the
    token and the colon. *)
Lemma locked_match_sound (d : dict) (w line : str) (g : groups) (rest : str) :
  forallb white_char w = true ->
  re_match (locked_regex w d) line = Some (g, rest) ->
  exists tok key,
    line = w ++ tok ++ c_colon :: rest /\
    In key (alternatives (keys d)) /\ match_text key tok = Some [] /\
    g = [("module"%string, tok)].
Proof.
  intros Hw. unfold re_match, locked_regex.
  remember (Cat (Group "module" (alternation (keys d))) (One (Lit c_colon)))
    as tail eqn:Et.
  change (bt (Cat (interp w) tail) line [] (fun rest g => Some (g, rest)))
    with (bt (interp w) line []
            (fun s1 g1 => bt tail s1 g1 (fun rest g => Some (g, rest)))).
  rewrite bt_interp.
  destruct (match_text w line) as [s1|] eqn:E; [|discriminate].
  apply (match_text_white _ _ _ Hw) in E. subst line tail.
  intros H. apply module_tail_sound in H as (tok & key & -> & Hin & Hm & ->).
  exists tok, key. auto.
Qed.

(** The pattern of the substitution finds the prefix and the token it was
    built from. *)
Lemma sub_pattern_match (w tok rest : str) :
  re_match (sub_pattern (Some w) tok) (w ++ tok ++ c_colon :: rest)
  = Some ([("1"%string, w)], rest).
Proof.
  unfold re_match, sub_pattern, format_sw.
  change (bt (Cat (Group "1" (interp w)) (Cat (interp tok) (One (Lit c_colon))))
             (w ++ tok ++ c_colon :: rest) [] (fun rest g => Some (g, rest)))
    with (bt (interp w) (w ++ tok ++ c_colon :: rest) []
            (fun s1 g1 =>
               bt (interp tok) s1
                  (("1"%string,
                    firstn (List.length (w ++ tok ++ c_colon :: rest)
                            - List.length s1)%nat
                           (w ++ tok ++ c_colon :: rest)) :: g1)
                  (fun s2 g2 => bt (One (Lit c_colon)) s2 g2
                                  (fun rest g => Some (g, rest))))).
  rewrite bt_interp, match_text_self, bt_interp, match_text_self.
  rewrite firstn_consumed. simpl. reflexivity.
Qed.

(** ** One line *)

Lemma ident_not_white (c : char) : ident_char c = true -> white_char c = false.
Proof.
  intros H. destruct (white_char c) eqn:E; [exfalso|reflexivity].
  unfold ident_char, is_letter, is_digit in H.
  unfold white_char, is_space, c_dash in E.
  to_prop; lia.
Qed.

Lemma ident_atom (c : char) : ident_char c = true -> atom_of_char c = Lit c.
Proof.
  intros H. unfold atom_of_char. destruct (c =? c_dot) eqn:E; [exfalso|reflexivity].
  unfold ident_char, is_letter, is_digit in H. unfold c_dot in E.
  to_prop; lia.
Qed.

Lemma rewrite_line_unmatched (d : dict) (st : rstate) (line : str) :
  is_matched st line = false -> rewrite_line d st line = Ok (st, line, c_dot).
Proof.
  unfold is_matched, rewrite_line.
  destruct (re_match (fqcnregex st) line) as [[g rest]|]; [discriminate|auto].
Qed.

Lemma white_text_truthy (w : str) : white_text w = true -> truthy (Some w) = true.
Proof. destruct w; [discriminate|reflexivity]. Qed.

(** A matching line in the state before the first match. *)
Lemma rewrite_line_unlocked (d : dict) (line : str) (g : groups) (rest : str) :
  re_match (_fqcnregex d) line = Some (g, rest) ->
  exists w tok key,
    line = w ++ tok ++ c_colon :: rest /\ white_lang w /\
    In key (alternatives (keys d)) /\ match_text key tok = Some [] /\
    group "module" g = Some tok /\
    rewrite_line d (initial_rstate d) line = rewrite_matched d w tok rest.
Proof.
  intros H. destruct (unlocked_match_sound _ _ _ _ H)
    as (w & tok & key & -> & Hw & Hin & Hm & ->).
  exists w, tok, key. repeat split; auto.
  unfold rewrite_line, rewrite_matched. simpl fqcnregex. rewrite H. simpl.
  unfold lookup. destruct (dict_get tok d) as [value|]; [|reflexivity].
  simpl. unfold re_sub. rewrite sub_pattern_match. simpl.
  destruct (expand_template value w); reflexivity.
Qed.

(** A matching line once the prefix [w] is captured. *)
Lemma rewrite_line_locked (d : dict) (w line : str) (g : groups) (rest : str) :
  white_text w = true ->
  re_match (locked_regex w d) line = Some (g, rest) ->
  exists tok key,
    line = w ++ tok ++ c_colon :: rest /\
    In key (alternatives (keys d)) /\ match_text key tok = Some [] /\
    group "module" g = Some tok /\
    rewrite_line d (locked_rstate w d) line = rewrite_matched d w tok rest.
Proof.
  intros Hw H.
  destruct (locked_match_sound _ _ _ _ _ (white_text_forallb _ Hw) H)
    as (tok & key & -> & Hin & Hm & ->).
  exists tok, key. repeat split; auto.
  unfold rewrite_line, rewrite_matched. simpl fqcnregex. rewrite H.
  simpl startingwhitespaces. rewrite (white_text_truthy _ Hw). simpl.
  unfold lookup. destruct (dict_get tok d) as [value|]; [|reflexivity].
  simpl. unfold re_sub. rewrite sub_pattern_match. simpl.
  destruct (expand_template value w); reflexivity.
Qed.

Lemma rewrite_matched_state (d : dict) (w tok rest : str) st nline mark :
  rewrite_matched d w tok rest = Ok (st, nline, mark) -> st = locked_rstate w d.
Proof.
  unfold rewrite_matched. destruct (dict_get tok d); [|discriminate].
  destruct (expand_template _ _); [|discriminate]. now intros [= <- _ _].
Qed.

(** A value that does not start with a digit is put after the prefix as it
    is. *)
Lemma expand_template_plain (value w : str) :
  match value with c :: _ => is_digit c = false | [] => True end ->
  expand_template value w = Ok (w ++ value ++ [c_colon]).
Proof.
  destruct value as [|c value]; simpl; [reflexivity|].
  now intros ->.
Qed.

(** The frame of a rewrite: when the token of a matching line is a key, and
    its value does not start with a digit, the new line is the old one with
    the value in place of the token. *)
Lemma rewrite_matched_frame (d : dict) (w tok rest value : str) :
  dict_get tok d = Some value ->
  match value with c :: _ => is_digit c = false | [] => True end ->
  rewrite_matched d w tok rest =
  Ok (locked_rstate w d, w ++ value ++ c_colon :: rest,
      if str_eqb tok value then c_dot else c_star).
Proof.
  intros Hget Hv. unfold rewrite_matched.
  rewrite Hget, (expand_template_plain _ _ Hv).
  now rewrite <- !app_assoc.
Qed.

Lemma alternatives_of_keys (d : dict) (k : str) :
  In k (keys d) -> alternatives (keys d) = keys d.
Proof. destruct (keys d); [contradiction|reflexivity]. Qed.

Lemma wf_keys_In (d : dict) (k : str) :
  wf_keys d = true -> In k (keys d) -> wf_key k = true.
Proof.
  unfold wf_keys. rewrite forallb_forall. auto.
Qed.

Lemma wf_key_head (k : str) :
  wf_key k = true -> exists c k', k = c :: k' /\ ident_char c = true.
Proof.
  destruct k as [|c k']; simpl; [discriminate|].
  intros H. apply andb_true_iff in H as [H _]. now exists c, k'.
Qed.

(** A key of a well-formed map does not match a text that starts with a
    character of the prefix, nor the empty text. *)
Lemma wf_key_no_white (key tok : str) :
  wf_key key = true -> match_text key tok = Some [] ->
  exists c tok', tok = c :: tok' /\ white_char c = false.
Proof.
  intros Hwf Hm. destruct (wf_key_head _ Hwf) as (kc & key' & -> & Hid).
  simpl in Hm. destruct tok as [|c tok']; [discriminate|].
  rewrite (ident_atom _ Hid) in Hm. simpl in Hm.
  destruct (c =? kc) eqn:E; [|discriminate].
  apply N.eqb_eq in E. subst c.
  exists kc, tok'. auto using ident_not_white.
Qed.

(** With the prefix [w] captured, a line that puts a known key after another
    prefix does not match. *)
Lemma locked_other_prefix (d : dict) (w w' k rest : str) :
  wf_keys d = true -> white_text w = true ->
  forallb white_char w' = true -> w' <> w -> In k (keys d) ->
  is_matched (locked_rstate w d) (w' ++ k ++ c_colon :: rest) = false.
Proof.
  intros Hwf Hw Hw' Hne Hk. unfold is_matched. simpl fqcnregex.
  destruct (re_match (locked_regex w d) (w' ++ k ++ c_colon :: rest))
    as [[g rest0]|] eqn:E; [exfalso|reflexivity].
  apply (locked_match_sound _ _ _ _ _ (white_text_forallb _ Hw)) in E
    as (tok & key & Heq & Hin & Hm & _).
  rewrite (alternatives_of_keys _ _ Hk) in Hin.
  destruct (wf_key_no_white _ _ (wf_keys_In _ _ Hwf Hin) Hm)
    as (tc & tok' & -> & Htc).
  destruct (wf_key_head _ (wf_keys_In _ _ Hwf Hk)) as (kc & k' & -> & Hkc).
  apply ident_not_white in Hkc.
  apply white_text_forallb in Hw.
  apply app_eq_app in Heq as [l [[E1 E2]|[E1 E2]]].
  - destruct l as [|c l]; [rewrite app_nil_r in E1; contradiction|].
    subst w'. rewrite forallb_app in Hw'. apply andb_true_iff in Hw' as [_ Hl].
    simpl in Hl. apply andb_true_iff in Hl as [Hc _].
    simpl in E2. injection E2 as -> _. congruence.
  - destruct l as [|c l]; [rewrite app_nil_r in E1; now subst w|].
    subst w. rewrite forallb_app in Hw. apply andb_true_iff in Hw as [_ Hl].
    simpl in Hl. apply andb_true_iff in Hl as [Hc _].
    simpl in E2. injection E2 as -> _. congruence.
Qed.

(** ** The self-mappings *)

Lemma self_maps_keep (vs : list str) (d : dict) (x : str) :
  dict_get x d = Some x -> dict_get x (fold_left self_map vs d) = Some x.
Proof.
  revert d; induction vs as [|v vs IH]; intros d Hx; simpl; [exact Hx|].
  apply IH. unfold self_map.
  destruct (str_eqb x v) eqn:E.
  - apply str_eqb_eq in E. subst v. apply dict_get_set_same.
  - apply str_eqb_neq in E. now rewrite dict_get_set_other.
Qed.

Lemma self_maps_cover (vs : list str) (d : dict) (v : str) :
  In v vs -> dict_get v (fold_left self_map vs d) = Some v.
Proof.
  revert d; induction vs as [|x vs IH]; intros d; simpl; [contradiction|].
  intros [->|Hin]; [|now apply IH].
  apply self_maps_keep. apply dict_get_set_same.
Qed.

Lemma self_maps_origin (vs : list str) (d : dict) (k v : str) :
  dict_get k (fold_left self_map vs d) = Some v ->
  (In k vs /\ v = k) \/ dict_get k d = Some v.
Proof.
  revert d; induction vs as [|x vs IH]; intros d; simpl; [now right|].
  intros H. destruct (IH _ H) as [[Hin ->]|Hd]; [left; auto|].
  unfold self_map in Hd. destruct (str_eqb k x) eqn:E.
  - apply str_eqb_eq in E. subst x. rewrite dict_get_set_same in Hd.
    injection Hd as <-. left; auto.
  - apply str_eqb_neq in E. rewrite dict_get_set_other in Hd by exact E.
    now right.
Qed.

Lemma dict_get_values (k v : str) (d : dict) :
  dict_get k d = Some v -> In v (values d).
Proof.
  intros H. apply dict_get_In in H. unfold values.
  change v with (snd (k, v)). now apply in_map.
Qed.

(** After lines 176-177 every value of the map is a key that maps to
    itself. *)
Lemma add_self_mappings_fixed (d0 : dict) (k v : str) :
  dict_get k (add_self_mappings d0) = Some v ->
  dict_get v (add_self_mappings d0) = Some v.
Proof.
  unfold add_self_mappings.
  change (fun d fqcn => dict_set fqcn fqcn d) with self_map.
  intros H. destruct (self_maps_origin _ _ _ _ H) as [[Hin ->]|Hd].
  - exact H.
  - apply self_maps_cover. now apply dict_get_values in Hd.
Qed.

(** An entry whose key is not itself a value of the map is kept. *)
Lemma add_self_mappings_keeps (d0 : dict) (k v : str) :
  dict_get k d0 = Some v -> ~ In k (values d0) ->
  dict_get k (add_self_mappings d0) = Some v.
Proof.
  unfold add_self_mappings.
  change (fun d fqcn => dict_set fqcn fqcn d) with self_map.
  generalize (values d0) as vs. intros vs; revert d0.
  induction vs as [|x vs IH]; intros d0 Hget Hnot; simpl; [exact Hget|].
  apply IH.
  - unfold self_map. rewrite dict_get_set_other; [exact Hget|].
    intros ->. apply Hnot. now left.
  - intros Hin. apply Hnot. now right.
Qed.

Lemma build_result (a : Args.t) (w : World) (out : list event) (d : dict) :
  build a w = (out, Ok d) -> exists d0, d = add_self_mappings d0.
Proof.
  unfold build.
  destruct (read_fqcnmapfile w (Args.fqcnmapfile a)) as [c|]; simpl;
    match goal with
    | |- context [bind ?m _] => destruct m as [o [d0|e]]
    end; simpl; try discriminate; intros [= _ <-]; now exists d0.
Qed.

Lemma build_from_cache (a : Args.t) (w : World) (c : dict) :
  read_fqcnmapfile w (Args.fqcnmapfile a) = Some c ->
  Args.updatefqcnmapfile a = false ->
  build a w = ([], Ok (add_self_mappings c)).
Proof.
  intros Hc Hu. unfold build. rewrite Hc, Hu. reflexivity.
Qed.

(** ** Tokens that are no keys *)

Lemma matched_token_unlocked (d : dict) (line tok : str) :
  matched_token (initial_rstate d) line = Some tok ->
  exists w rest, rewrite_line d (initial_rstate d) line
                 = rewrite_matched d w tok rest.
Proof.
  unfold matched_token. simpl fqcnregex.
  destruct (re_match (_fqcnregex d) line) as [[g rest]|] eqn:E; [|discriminate].
  intros Hg.
  destruct (rewrite_line_unlocked _ _ _ _ E)
    as (w & tok' & key & _ & _ & _ & _ & Hg' & Hrw).
  rewrite Hg in Hg'. injection Hg' as <-. now exists w, rest.
Qed.

Lemma matched_token_locked (d : dict) (w line tok : str) :
  white_text w = true ->
  matched_token (locked_rstate w d) line = Some tok ->
  exists rest, rewrite_line d (locked_rstate w d) line
               = rewrite_matched d w tok rest.
Proof.
  intros Hw. unfold matched_token. simpl fqcnregex.
  destruct (re_match (locked_regex w d) line) as [[g rest]|] eqn:E;
    [|discriminate].
  intros Hg.
  destruct (rewrite_line_locked _ _ _ _ _ Hw E)
    as (tok' & key & _ & _ & _ & Hg' & Hrw).
  rewrite Hg in Hg'. injection Hg' as <-. now exists rest.
Qed.

(** A line that matches with a token the map does not have ends the run. *)
Lemma rewrite_line_unknown_token (d : dict) (st : rstate) (line tok : str) :
  reachable d st -> matched_token st line = Some tok ->
  dict_get tok d = None ->
  rewrite_line d st line = Raise (KeyError tok).
Proof.
  intros [|w Hw] Hm Hnone.
  - destruct (matched_token_unlocked _ _ _ Hm) as (w & rest & ->).
    unfold rewrite_matched. now rewrite Hnone.
  - destruct (matched_token_locked _ _ _ _ Hw Hm) as (rest & ->).
    unfold rewrite_matched. now rewrite Hnone.
Qed.

(** ** Running twice *)

Lemma star_bt_complete {A} (a : atom) (s : str) (k : str -> option A) :
  star_bt a s k = None ->
  forall w s', s = w ++ s' -> forallb (atom_match a) w = true -> k s' = None.
Proof.
  induction s as [|c s IH]; simpl.
  - intros Hk w s' E _. symmetry in E. apply app_eq_nil in E as [-> ->].
    exact Hk.
  - destruct (atom_match a c) eqn:Ec.
    + destruct (star_bt a s k) eqn:Es; [discriminate|].
      intros Hk [|x w] s' E Hw; simpl in E.
      * now subst s'.
      * injection E as <- ->. simpl in Hw. apply andb_true_iff in Hw as [_ Hw].
        now apply (IH eq_refl w s').
    + intros Hk [|x w] s' E Hw; simpl in E.
      * now subst s'.
      * injection E as <- ->. simpl in Hw. rewrite Ec in Hw. discriminate.
Qed.

Lemma plus_bt_complete {A} (a : atom) (s : str) (g : groups)
    (k : str -> groups -> option A) :
  bt (Plus a) s g k = None ->
  forall w s', s = w ++ s' -> w <> [] -> forallb (atom_match a) w = true ->
               k s' g = None.
Proof.
  simpl. intros H [|x w] s' -> Hne Hw; [contradiction|].
  simpl in *. apply andb_true_iff in Hw as [Hx Hw]. rewrite Hx in H.
  now apply (star_bt_complete _ _ _ H w s').
Qed.

Lemma opt_dash_complete {A} (r : regex) (s : str) (g : groups)
    (k : str -> groups -> option A) :
  bt (Cat (Opt (One (Lit c_dash))) r) s g k = None ->
  bt r s g k = None /\ forall s', s = c_dash :: s' -> bt r s' g k = None.
Proof.
  change (bt (Cat (Opt (One (Lit c_dash))) r) s g k)
    with (match bt (One (Lit c_dash)) s g (fun s1 g1 => bt r s1 g1 k) with
          | Some y => Some y
          | None => bt r s g k
          end).
  destruct (bt (One (Lit c_dash)) s g (fun s1 g1 => bt r s1 g1 k))
    as [y|] eqn:E; [discriminate|].
  intros Hr. split; [exact Hr|]. intros s' ->.
  change (bt (One (Lit c_dash)) (c_dash :: s') g (fun s1 g1 => bt r s1 g1 k))
    with (bt r s' g k) in E.
  exact E.
Qed.

(** The matcher tries every split of the class [\s*-?\s+]. *)
Lemma white_class_complete {A} (s : str) (g : groups)
    (k : str -> groups -> option A) :
  bt (Cat (Star Ws) (Cat (Opt (One (Lit c_dash))) (Plus Ws))) s g k = None ->
  forall w s', s = w ++ s' -> white_lang w -> k s' g = None.
Proof.
  change (bt (Cat (Star Ws) (Cat (Opt (One (Lit c_dash))) (Plus Ws))) s g k)
    with (star_bt Ws s (fun sa =>
            bt (Cat (Opt (One (Lit c_dash))) (Plus Ws)) sa g k)).
  intros H w s' -> (w1 & w2 & H1 & H2 & Hne & Hw).
  assert (Hsplit : exists sa, w ++ s' = w1 ++ sa /\
            (sa = w2 ++ s' \/ sa = c_dash :: w2 ++ s')).
  { destruct Hw as [-> | ->].
    - exists (w2 ++ s'). rewrite <- app_assoc. auto.
    - exists (c_dash :: w2 ++ s'). rewrite <- app_assoc. auto. }
  destruct Hsplit as (sa & E & Hsa).
  pose proof (star_bt_complete _ _ _ H w1 sa E H1) as Hopt.
  apply opt_dash_complete in Hopt as [Hno Hdash].
  destruct Hsa as [-> | ->].
  - now apply (plus_bt_complete _ _ _ _ Hno w2 s').
  - now apply (plus_bt_complete _ _ _ _ (Hdash _ eq_refl) w2 s').
Qed.

Lemma try_keys_complete {A} (ks : list str) (s : str) (k : str -> option A) :
  try_keys ks s k = None ->
  forall key s', In key ks -> match_text key s = Some s' -> k s' = None.
Proof.
  induction ks as [|k1 ks IH]; simpl; [contradiction|].
  destruct (match_text k1 s) as [s1|] eqn:E.
  - destruct (k s1) eqn:Ek; [discriminate|].
    intros H key s' [->|Hin] Hm.
    + rewrite E in Hm. now injection Hm as <-.
    + now apply (IH H key).
  - intros H key s' [->|Hin] Hm; [congruence|now apply (IH H key)].
Qed.

(** A line made of a prefix of the class, a text one of the keys matches
    and a colon matches the first pattern. *)
Lemma unlocked_match_complete (d : dict) (w tok key rest : str) :
  white_lang w -> In key (alternatives (keys d)) ->
  match_text key tok = Some [] ->
  is_matched (initial_rstate d) (w ++ tok ++ c_colon :: rest) = true.
Proof.
  intros Hw Hin Hm. unfold is_matched. simpl fqcnregex.
  destruct (re_match (_fqcnregex d) (w ++ tok ++ c_colon :: rest))
    as [r|] eqn:E; [reflexivity|exfalso].
  unfold re_match, _fqcnregex in E.
  remember (Cat (Group "module" (alternation (keys d))) (One (Lit c_colon)))
    as tail eqn:Et.
  remember (Cat (Star Ws) (Cat (Opt (One (Lit c_dash))) (Plus Ws)))
    as white eqn:Ew.
  simpl bt in E. subst white.
  pose proof (white_class_complete _ _ _ E w _ eq_refl Hw) as Ht.
  cbv beta in Ht. subst tail.
  remember (alternation (keys d)) as r eqn:Er.
  simpl bt in Ht. subst r. rewrite bt_alternation in Ht.
  pose proof (try_keys_complete _ _ _ Ht key (c_colon :: rest) Hin
                (match_text_app _ _ _ Hm)) as Hc.
  simpl in Hc. discriminate Hc.
Qed.

Lemma wf_map_get (d : dict) (k v : str) :
  wf_map d = true -> dict_get k d = Some v ->
  wf_key k = true /\ wf_value v = true.
Proof.
  intros Hwf Hget. apply dict_get_In in Hget.
  unfold wf_map in Hwf. rewrite forallb_forall in Hwf.
  apply Hwf in Hget. simpl in Hget. now apply andb_true_iff in Hget.
Qed.

Lemma wf_value_key (v : str) : wf_value v = true -> wf_key v = true.
Proof.
  destruct v as [|c v]; [discriminate|]. unfold wf_value.
  intros H. now apply andb_true_iff in H as [_ H].
Qed.

Lemma wf_value_plain (v : str) :
  wf_value v = true ->
  match v with c :: _ => is_digit c = false | [] => True end.
Proof.
  destruct v as [|c v]; [discriminate|]. unfold wf_value.
  intros H. apply andb_true_iff in H as [H _].
  destruct (is_digit c) eqn:E; [exfalso|reflexivity].
  unfold is_letter in H. unfold is_digit in E. to_prop; lia.
Qed.

Lemma key_char_not_colon (c : char) :
  ident_char c || (c =? c_dot) = true -> (c =? c_colon) = false.
Proof.
  intros H. destruct (c =? c_colon) eqn:E; [exfalso|reflexivity].
  unfold ident_char, is_letter, is_digit, c_dot in H. unfold c_colon in E.
  to_prop; lia.
Qed.

Lemma wf_key_no_colon (k : str) :
  wf_key k = true -> forallb (fun c => negb (c =? c_colon)) k = true.
Proof.
  destruct k as [|c k]; [discriminate|]. simpl.
  intros H. apply andb_true_iff in H as [Hc Hk].
  rewrite (key_char_not_colon c) by (now rewrite Hc). simpl.
  induction k as [|x k IH]; simpl in *; [reflexivity|].
  apply andb_true_iff in Hk as [Hx Hk].
  rewrite (key_char_not_colon x Hx). simpl. now apply IH.
Qed.

(** Where the prefix ends is decided by the first character that is neither
    white space nor a dash. *)
Lemma white_prefix_unique (w1 w2 x1 x2 : str) (c1 c2 : char) :
  forallb white_char w1 = true -> forallb white_char w2 = true ->
  white_char c1 = false -> white_char c2 = false ->
  w1 ++ c1 :: x1 = w2 ++ c2 :: x2 -> w1 = w2 /\ c1 :: x1 = c2 :: x2.
Proof.
  intros H1 H2 Hc1 Hc2. revert w2 H2.
  induction w1 as [|a w1 IH]; intros [|b w2] H2 E; simpl in *.
  - auto.
  - injection E as -> _. apply andb_true_iff in H2 as [Hb _]. congruence.
  - injection E as -> _. apply andb_true_iff in H1 as [Ha _]. congruence.
  - injection E as -> E. apply andb_true_iff in H1 as [_ H1].
    apply andb_true_iff in H2 as [_ H2].
    destruct (IH H1 w2 H2 E) as [-> E']. auto.
Qed.

(** Where a token without a colon ends is decided by the first colon. *)
Lemma token_unique (t1 t2 r1 r2 : str) :
  forallb (fun c => negb (c =? c_colon)) t1 = true ->
  forallb (fun c => negb (c =? c_colon)) t2 = true ->
  t1 ++ c_colon :: r1 = t2 ++ c_colon :: r2 -> t1 = t2 /\ r1 = r2.
Proof.
  intros H1. revert t2.
  induction t1 as [|a t1 IH]; intros [|b t2] H2 E; simpl in *.
  - now injection E.
  - injection E as <- _. discriminate H2.
  - injection E as -> _. discriminate H1.
  - injection E as -> E. apply andb_true_iff in H1 as [_ H1].
    apply andb_true_iff in H2 as [_ H2].
    destruct (IH H1 t2 H2 E) as [-> ->]. auto.
Qed.

Lemma rewrite_matched_ok (d : dict) (w tok rest : str) st nline mark :
  wf_map d = true ->
  rewrite_matched d w tok rest = Ok (st, nline, mark) ->
  exists value,
    dict_get tok d = Some value /\ st = locked_rstate w d /\
    nline = w ++ value ++ c_colon :: rest.
Proof.
  intros Hwf H. unfold rewrite_matched in H.
  destruct (dict_get tok d) as [value|] eqn:Eg; [|discriminate].
  destruct (wf_map_get _ _ _ Hwf Eg) as [_ Hv].
  rewrite (expand_template_plain _ _ (wf_value_plain _ Hv)) in H.
  injection H as <- <- _. exists value. now rewrite <- !app_assoc.
Qed.

(** The second pass over a rewritten line that matches again: the token is
    the value put there by the first pass, which maps to itself, or it is
    no key. *)
Lemma rewritten_line_again (d : dict) (w value rest w2 tok2 rest2 : str) :
  wf_map d = true -> dict_get value d = Some value ->
  forallb white_char w = true -> forallb white_char w2 = true ->
  w ++ value ++ c_colon :: rest = w2 ++ tok2 ++ c_colon :: rest2 ->
  rewrite_matched d w2 tok2 rest2
  = Ok (locked_rstate w d, w ++ value ++ c_colon :: rest, c_dot)
  \/ rewrite_matched d w2 tok2 rest2 = Raise (KeyError tok2).
Proof.
  intros Hwf Hself Hw Hw2 E.
  destruct (dict_get tok2 d) as [v2|] eqn:Eg;
    [left|right; unfold rewrite_matched; now rewrite Eg].
  destruct (wf_map_get _ _ _ Hwf Eg) as [Hk2 _].
  destruct (wf_map_get _ _ _ Hwf Hself) as [Hkv Hv].
  destruct (wf_key_head _ Hkv) as (cv & v' & Ev & Hcv).
  destruct (wf_key_head _ Hk2) as (c2 & t' & Et & Hc2).
  apply ident_not_white in Hcv. apply ident_not_white in Hc2.
  assert (E' : w ++ cv :: (v' ++ c_colon :: rest)
               = w2 ++ c2 :: (t' ++ c_colon :: rest2))
    by (rewrite Ev, Et in E; exact E).
  destruct (white_prefix_unique _ _ _ _ _ _ Hw Hw2 Hcv Hc2 E') as [<- Etail].
  assert (Etok : value ++ c_colon :: rest = tok2 ++ c_colon :: rest2)
    by (rewrite Ev, Et; exact Etail).
  destruct (token_unique _ _ _ _ (wf_key_no_colon _ Hkv)
              (wf_key_no_colon _ Hk2) Etok) as [<- <-].
  rewrite (rewrite_matched_frame _ _ _ _ _ Hself (wf_value_plain _ Hv)).
  now rewrite str_eqb_refl.
Qed.

Lemma white_prefix_app (w : str) (c : char) (x : str) :
  forallb white_char w = true -> white_char c = false ->
  white_prefix (w ++ c :: x) = w.
Proof.
  intros Hw Hc. induction w as [|y w IH]; simpl.
  - now rewrite Hc.
  - simpl in Hw. apply andb_true_iff in Hw as [Hy Hw].
    now rewrite Hy, IH.
Qed.

Lemma reachable_white (d : dict) (w : str) :
  white_text w = true -> reachable d (locked_rstate w d).
Proof. now constructor. Qed.

(** One line, twice: the second pass over the line the first pass gave
    leaves the loop in the same state with the same line, unless it ends
    with [KeyError]. *)
Lemma line_twice (d : dict) (st st1 : rstate) (line nline : str) (mark : char) :
  wf_map d = true -> self_mapped d -> reachable d st ->
  rewrite_line d st line = Ok (st1, nline, mark) ->
  reachable d st1
  /\ ((exists mark', rewrite_line d st nline = Ok (st1, nline, mark'))
      \/ exists tok, rewrite_line d st nline = Raise (KeyError tok)).
Proof.
  intros Hwf Hself Hreach Hr.
  destruct (is_matched st line) eqn:Hm.
  2:{ rewrite (rewrite_line_unmatched _ _ _ Hm) in Hr.
      injection Hr as <- <- <-. split; [exact Hreach|]. left.
      exists c_dot. now apply rewrite_line_unmatched. }
  unfold is_matched in Hm.
  destruct Hreach as [|w0 Hw0]; simpl fqcnregex in Hm.
  - (* the first match of the file *)
    destruct (re_match (_fqcnregex d) line) as [[g rest]|] eqn:E;
      [|discriminate].
    destruct (rewrite_line_unlocked _ _ _ _ E)
      as (w & tok & key & -> & Hw & _ & _ & _ & Hrw).
    rewrite Hrw in Hr.
    destruct (rewrite_matched_ok _ _ _ _ _ _ _ Hwf Hr)
      as (value & Hget & -> & ->).
    pose proof (white_lang_text _ Hw) as Hwt.
    split; [now apply reachable_white|].
    apply Hself in Hget.
    assert (Hin : In value (alternatives (keys d))).
    { pose proof (dict_get_keys _ _ _ Hget) as Hk.
      now rewrite (alternatives_of_keys _ _ Hk). }
    pose proof (unlocked_match_complete d w value value rest Hw Hin) as Hm2.
    rewrite <- (app_nil_r value) in Hm2 at 2.
    specialize (Hm2 (match_text_self value [])).
    unfold is_matched in Hm2. simpl fqcnregex in Hm2.
    destruct (re_match (_fqcnregex d) (w ++ value ++ c_colon :: rest))
      as [[g2 rest2]|] eqn:E2; [|discriminate].
    destruct (rewrite_line_unlocked _ _ _ _ E2)
      as (w2 & tok2 & key2 & Eline & Hw2 & _ & _ & _ & Hrw2).
    rewrite Hrw2.
    destruct (rewritten_line_again d w value rest w2 tok2 rest2 Hwf Hget
                (white_text_forallb _ Hwt)
                (white_text_forallb _ (white_lang_text _ Hw2)) Eline)
      as [-> | ->]; eauto.
  - (* a match under the captured prefix *)
    destruct (re_match (locked_regex w0 d) line) as [[g rest]|] eqn:E;
      [|discriminate].
    destruct (rewrite_line_locked _ _ _ _ _ Hw0 E)
      as (tok & key & -> & _ & _ & _ & Hrw).
    rewrite Hrw in Hr.
    destruct (rewrite_matched_ok _ _ _ _ _ _ _ Hwf Hr)
      as (value & Hget & -> & ->).
    split; [now apply reachable_white|].
    apply Hself in Hget.
    destruct (re_match (locked_regex w0 d) (w0 ++ value ++ c_colon :: rest))
      as [[g2 rest2]|] eqn:E2.
    + destruct (rewrite_line_locked _ _ _ _ _ Hw0 E2)
        as (tok2 & key2 & Eline & _ & _ & _ & Hrw2).
      rewrite Hrw2.
      destruct (rewritten_line_again d w0 value rest w0 tok2 rest2 Hwf Hget
                  (white_text_forallb _ Hw0) (white_text_forallb _ Hw0) Eline)
        as [-> | ->]; eauto.
    + left. exists c_dot. apply rewrite_line_unmatched.
      unfold is_matched. simpl fqcnregex. now rewrite E2.
Qed.

(** A second run over the output of a run never gives another output: it
    gives the same lines or it ends with [KeyError]. *)
Lemma second_run_same_or_keyerror (d : dict) (lines : list str) :
  wf_map d = true -> self_mapped d ->
  forall st output,
    reachable d st ->
    rewrite_lines d st lines = Ok output ->
    rewrite_lines d st output = Ok output
    \/ exists tok, rewrite_lines d st output = Raise (KeyError tok).
Proof.
  intros Hwf Hself.
  induction lines as [|l ls IH]; intros st output Hreach; simpl.
  - intros [= <-]. now left.
  - destruct (rewrite_line d st l) as [[[st1 n] m]|e] eqn:El; simpl;
      [|discriminate].
    destruct (rewrite_lines d st1 ls) as [out|e] eqn:Els; simpl;
      [|discriminate].
    intros [= <-].
    destruct (line_twice _ _ _ _ _ _ Hwf Hself Hreach El)
      as (Hreach1 & [(m' & Hn) | (tok & Hn)]).
    + simpl. rewrite Hn. simpl.
      destruct (IH _ _ Hreach1 Els) as [-> | (tok & ->)]; simpl; eauto.
    + right. exists tok. simpl. now rewrite Hn.
Qed.

(** The frame of a rewrite, for every line whose token is a key: the new
    line is the old one with the value of the map in place of the token; the
    prefix, the colon and the rest of the line are kept. *)
Lemma rewrite_key_token (d : dict) (st : rstate) (line tok value : str) :
  wf_map d = true -> reachable d st ->
  matched_token st line = Some tok -> dict_get tok d = Some value ->
  exists w rest,
    line = w ++ tok ++ c_colon :: rest /\ white_text w = true /\
    rewrite_line d st line
    = Ok (locked_rstate w d, w ++ value ++ c_colon :: rest,
          if str_eqb tok value then c_dot else c_star).
Proof.
  intros Hwf Hreach Hm Hget.
  destruct (wf_map_get _ _ _ Hwf Hget) as [_ Hv].
  apply wf_value_plain in Hv.
  unfold matched_token in Hm.
  destruct Hreach as [|w0 Hw0]; simpl fqcnregex in Hm.
  - destruct (re_match (_fqcnregex d) line) as [[g rest]|] eqn:E;
      [|discriminate].
    destruct (rewrite_line_unlocked _ _ _ _ E)
      as (w & tok' & key & -> & Hw & _ & _ & Hg & Hrw).
    rewrite Hm in Hg. injection Hg as <-.
    exists w, rest. split; [reflexivity|].
    split; [now apply white_lang_text|].
    rewrite Hrw. now apply rewrite_matched_frame.
  - destruct (re_match (locked_regex w0 d) line) as [[g rest]|] eqn:E;
      [|discriminate].
    destruct (rewrite_line_locked _ _ _ _ _ Hw0 E)
      as (tok' & key & -> & _ & _ & Hg & Hrw).
    rewrite Hm in Hg. injection Hg as <-.
    exists w0, rest. split; [reflexivity|]. split; [exact Hw0|].
    rewrite Hrw. now apply rewrite_matched_frame.
Qed.

(** ** Runs *)

Lemma events_bind {A B} (m : M A) (f : A -> M B) :
  events (bind m f) =
  events m ++ match outcome m with
              | Ok a => events (f a)
              | Raise _ => []
              end.
Proof.
  destruct m as [o [x|e]]; simpl.
  - destruct (f x) as [o' r]. reflexivity.
  - now rewrite app_nil_r.
Qed.

Lemma outcome_bind {A B} (m : M A) (f : A -> M B) :
  outcome (bind m f) =
  match outcome m with
  | Ok a => outcome (f a)
  | Raise e => Raise e
  end.
Proof.
  destruct m as [o [x|e]]; simpl; [|reflexivity].
  destruct (f x) as [o' r]. reflexivity.
Qed.

Lemma bind_lift {A B} (r : result A) (f : A -> M B) :
  bind (lift r) f = match r with
                    | Ok x => f x
                    | Raise e => ([], Raise e)
                    end.
Proof.
  destruct r as [x|e]; simpl; [|reflexivity]. now destruct (f x).
Qed.

Lemma Forall_events_bind {A B} (P : event -> Prop) (m : M A) (f : A -> M B) :
  Forall P (events m) -> (forall x, Forall P (events (f x))) ->
  Forall P (events (bind m f)).
Proof.
  intros Hm Hf. rewrite events_bind. apply Forall_app. split; [exact Hm|].
  destruct (outcome m); [apply Hf|constructor].
Qed.

Lemma touches_mono (fs1 fs2 : list str) (e : event) :
  incl fs1 fs2 -> touches fs1 e -> touches fs2 e.
Proof.
  unfold touches. destruct (file_of e); auto.
Qed.

Lemma Forall_touches_mono (fs1 fs2 : list str) (out : list event) :
  incl fs1 fs2 -> Forall (touches fs1) out -> Forall (touches fs2) out.
Proof.
  intros Hi. apply Forall_impl. intros e. now apply touches_mono.
Qed.

Ltac events_step :=
  first
    [ apply Forall_events_bind; [|intros ?]
    | match goal with
      | |- Forall _ (events (if ?b then _ else _)) => destruct b
      | |- Forall _ (events (match ?x with _ => _ end)) => destruct x
      end
    | (constructor; [exact I|constructor])
    | constructor ].

(** The builder prints and writes the cache; it touches no task file. *)
Lemma generate_loop_events (w : World) (modnames : list str) (d : dict) :
  Forall (touches []) (events (generate_loop w d modnames)).
Proof.
  revert d; induction modnames as [|m ms IH]; intros d; simpl.
  - constructor.
  - apply Forall_events_bind; [|intros x; apply IH].
    unfold generate_one. repeat events_step.
Qed.

Lemma build_events (a : Args.t) (w : World) :
  Forall (touches []) (events (build a w)).
Proof.
  unfold build.
  destruct (read_fqcnmapfile w (Args.fqcnmapfile a)); simpl negb;
    cbv beta iota.
  all: apply Forall_events_bind; [|intros x; constructor].
  all: try destruct (Args.updatefqcnmapfile a); simpl orb; cbv iota.
  all: try (constructor; fail).
  all: unfold generate; repeat events_step; apply generate_loop_events.
Qed.

Lemma process_lines_cons (a : Args.t) (d : dict) (f : str) (st : rstate)
    (line : str) (lines : list str) :
  process_lines a d f st (line :: lines) =
  ('(st', nline, mark) <- lift (rewrite_line d st line) ;;
   emit (Symbol mark) ;;
   when (Args.writefiles a) then emit (LineWritten f nline) ;;
   '(out, st'') <- process_lines a d f st' lines ;;
   ret (nline :: out, st''))%run.
Proof. reflexivity. Qed.

Lemma process_files_cons (a : Args.t) (d : dict) (fs : filesystem) vars
    (f : str) (rest : list str) :
  process_files a d fs vars (f :: rest) =
  ('(fs', vars') <- process_file a d fs vars f ;;
   process_files a d fs' vars' rest)%run.
Proof. reflexivity. Qed.

Lemma process_lines_events (a : Args.t) (d : dict) (f : str) (lines : list str)
    (st : rstate) :
  Forall (touches [f]) (events (process_lines a d f st lines)).
Proof.
  revert st; induction lines as [|l ls IH]; intros st.
  - constructor.
  - rewrite process_lines_cons.
    apply Forall_events_bind; [constructor|]. intros [[st' nline] mark].
    apply Forall_events_bind; [repeat constructor|]. intros _.
    apply Forall_events_bind.
    { destruct (Args.writefiles a); repeat constructor. }
    intros _. apply Forall_events_bind; [apply IH|]. intros [out st''].
    constructor.
Qed.

Lemma process_file_events (a : Args.t) (d : dict) (fs : filesystem) vars
    (f : str) :
  Forall (touches [f]) (events (process_file a d fs vars f)).
Proof.
  unfold process_file.
  apply Forall_events_bind; [repeat constructor|]. intros _.
  apply Forall_events_bind; [apply process_lines_events|].
  intros [changed st].
  apply Forall_events_bind; [repeat constructor|]. intros _.
  apply Forall_events_bind.
  { destruct (Args.printdiff a); repeat constructor. }
  intros _. apply Forall_events_bind.
  { destruct (Args.writefiles a); repeat constructor. }
  intros _. constructor.
Qed.

Lemma process_files_events (a : Args.t) (d : dict) (files : list str)
    (fs : filesystem) vars :
  Forall (touches files) (events (process_files a d fs vars files)).
Proof.
  revert fs vars; induction files as [|f rest IH]; intros fs vars.
  - constructor.
  - rewrite process_files_cons. apply Forall_events_bind.
    + apply (Forall_touches_mono [f]); [|apply process_file_events].
      intros x [->|[]]. now left.
    + intros [fs' vars'].
      apply (Forall_touches_mono rest); [|apply IH].
      intros x Hx. now right.
Qed.

(** What one file's turn gives back. *)
Lemma process_file_outcome (a : Args.t) (d : dict) (fs : filesystem) vars
    (f : str) :
  outcome (process_file a d fs vars f) =
  match outcome (process_lines a d f (initial_rstate d) (fs f)) with
  | Ok (changed, st) =>
      Ok (if Args.writefiles a then write_file fs f changed else fs, Some st)
  | Raise e => Raise e
  end.
Proof.
  unfold process_file. rewrite outcome_bind. cbn [outcome emit snd].
  rewrite outcome_bind.
  destruct (outcome (process_lines a d f (initial_rstate d) (fs f)))
    as [[changed st]|e]; [|reflexivity].
  rewrite outcome_bind. cbn [outcome emit snd].
  rewrite outcome_bind.
  destruct (Args.printdiff a); cbn [outcome emit ret snd];
    rewrite outcome_bind;
    destruct (Args.writefiles a); reflexivity.
Qed.

(** A file the loop does not visit keeps its content. *)
Lemma process_file_frame (a : Args.t) (d : dict) (fs fs' : filesystem)
    vars vars' (f p : str) :
  outcome (process_file a d fs vars f) = Ok (fs', vars') ->
  p <> f -> fs' p = fs p.
Proof.
  rewrite process_file_outcome.
  destruct (outcome (process_lines _ _ _ _ _)) as [[changed st]|e];
    [|discriminate].
  intros [= <- _] Hne. destruct (Args.writefiles a); [|reflexivity].
  unfold write_file. apply str_eqb_neq in Hne. now rewrite Hne.
Qed.

Lemma process_files_frame (a : Args.t) (d : dict) (files : list str)
    (fs fs' : filesystem) vars (p : str) :
  outcome (process_files a d fs vars files) = Ok fs' ->
  ~ In p files -> fs' p = fs p.
Proof.
  revert fs vars; induction files as [|f rest IH]; intros fs vars.
  - now intros [= <-].
  - rewrite process_files_cons, outcome_bind.
    destruct (outcome (process_file a d fs vars f)) as [[fs1 vars1]|e] eqn:E;
      [|discriminate].
    intros Hrest Hnot.
    rewrite (IH _ _ Hrest) by (intros Hin; apply Hnot; now right).
    apply (process_file_frame _ _ _ _ _ _ _ _ E).
    intros ->. apply Hnot. now left.
Qed.

(** The lines a file's turn collects are those of [rewrite_lines]. *)
Lemma process_lines_outcome (a : Args.t) (d : dict) (f : str)
    (lines : list str) (st : rstate) :
  rmap fst (outcome (process_lines a d f st lines)) = rewrite_lines d st lines.
Proof.
  revert st; induction lines as [|l ls IH]; intros st; [reflexivity|].
  rewrite process_lines_cons, outcome_bind. simpl rewrite_lines.
  unfold lift at 1. cbn [outcome snd].
  destruct (rewrite_line d st l) as [[[st' nline] mark]|e]; [|reflexivity].
  rewrite outcome_bind. cbn [outcome emit snd].
  rewrite outcome_bind.
  assert (Hw : outcome (when (Args.writefiles a)
                        then emit (LineWritten f nline))%run = Ok tt)
    by (destruct (Args.writefiles a); reflexivity).
  rewrite Hw, outcome_bind. cbn [rbind]. rewrite <- IH.
  destruct (outcome (process_lines a d f st' ls)) as [[out st'']|e];
    reflexivity.
Qed.

(** ** Discovery and the whole run *)

Section Run.
Context `{OsPath}.

Lemma any_false {A} (p : A -> result bool) (l : list A) (x : A) :
  any p l = Ok false -> In x l -> p x = Ok false.
Proof.
  induction l as [|y l IH]; simpl; [contradiction|].
  destruct (p y) as [[|]|e] eqn:E; simpl; try discriminate.
  intros Hl [<-|Hin]; [exact E|now apply IH].
Qed.

Lemma any_raise {A} (p : A -> result bool) (l : list A) (e : error) :
  any p l = Raise e -> exists x, In x l /\ p x = Raise e.
Proof.
  induction l as [|y l IH]; simpl; [discriminate|].
  destruct (p y) as [[|]|e'] eqn:E; simpl.
  - discriminate.
  - intros Hl. destruct (IH Hl) as (x & Hin & Hx). eauto.
  - intros [= <-]. eauto.
Qed.

Lemma collect_ok {A B} (f : A -> result (list B)) (l : list A)
    (found : list B) :
  collect f l = Ok found ->
  forall y, In y found <-> exists x fx, In x l /\ f x = Ok fx /\ In y fx.
Proof.
  revert found; induction l as [|x l IH]; simpl; intros found.
  - intros [= <-] y. split; [contradiction|]. now intros (x & fx & [] & _).
  - destruct (f x) as [fx|e] eqn:E; simpl; [|discriminate].
    destruct (collect f l) as [found'|e]; simpl; [|discriminate].
    intros [= <-] y. rewrite in_app_iff, (IH _ eq_refl). split.
    + intros [Hy|(x' & fx' & Hin & Hx & Hy)]; eauto 7.
    + intros (x' & fx' & [<-|Hin] & Hx & Hy); [|eauto 7].
      left. congruence.
Qed.

Lemma collect_all {A B} (f : A -> result (list B)) (l : list A)
    (found : list B) :
  collect f l = Ok found -> forall x, In x l -> exists fx, f x = Ok fx.
Proof.
  revert found; induction l as [|x l IH]; simpl; intros found;
    [contradiction|].
  destruct (f x) as [fx|e] eqn:E; simpl; [|discriminate].
  destruct (collect f l) as [found'|e]; simpl; [|discriminate].
  intros _ x' [<-|Hin]; [eauto|]. now apply (IH _ eq_refl).
Qed.

Lemma collect_raise {A B} (f : A -> result (list B)) (l : list A)
    (e : error) :
  collect f l = Raise e -> exists x, In x l /\ f x = Raise e.
Proof.
  induction l as [|x l IH]; simpl; [discriminate|].
  destruct (f x) as [fx|e'] eqn:E; simpl; [|intros [= <-]; eauto].
  destruct (collect f l) as [found'|e']; simpl; [discriminate|].
  intros [= <-]. destruct (IH eq_refl) as (x' & Hin & Hx). eauto.
Qed.

(** A path that is not excluded has failed the five tests for every entry
    of the list, and [match] has raised for none. *)
Lemma isexcluded_false (path ep : str) (excl : list str) :
  isexcluded path excl = Ok false -> In ep excl ->
  startswith (abspath path) ep = false
  /\ startswith (abspath path) (abspath ep) = false
  /\ purepath_match path ep = Some false
  /\ fnmatch (abspath path) ep = false
  /\ fnmatch_purepath path ep = false.
Proof.
  intros Hex Hin. unfold isexcluded in Hex. cbv zeta in Hex.
  pose proof (any_false _ _ ep Hex Hin) as Hep. cbv beta in Hep.
  unfold orelse in Hep.
  destruct (startswith (abspath path) ep); [discriminate|].
  destruct (startswith (abspath path) (abspath ep)); [discriminate|].
  destruct (purepath_match path ep) as [m|]; [|discriminate].
  injection Hep as Hep.
  apply orb_false_iff in Hep as [Hep H3].
  apply orb_false_iff in Hep as [-> H2]. auto.
Qed.

(** The only exception of [isexcluded] is the [ValueError] of [match]. *)
Lemma isexcluded_raise (path : str) (excl : list str) (e : error) :
  isexcluded path excl = Raise e ->
  e = ValueError /\ exists ep, In ep excl /\ purepath_match path ep = None.
Proof.
  unfold isexcluded. cbv zeta. intros Hex.
  apply any_raise in Hex as (ep & Hin & Hep). unfold orelse in Hep.
  destruct (startswith (abspath path) ep); [discriminate|].
  destruct (startswith (abspath path) (abspath ep)); [discriminate|].
  destruct (purepath_match path ep) as [m|] eqn:Em; [discriminate|].
  injection Hep as <-. eauto.
Qed.

Lemma isexcluded_prefix (path ep : str) (excl : list str) :
  In ep excl -> startswith (abspath path) (abspath ep) = true ->
  isexcluded path excl <> Ok false.
Proof.
  intros Hin Hs Hex.
  destruct (isexcluded_false _ _ _ Hex Hin) as (_ & Hs' & _). congruence.
Qed.

Lemma extensions_loop_spec (excl : list str) (dirpath name : str)
    (exts found : list str) (f : str) :
  extensions_loop excl dirpath name exts = Ok found ->
  In f found <->
  f = join dirpath name /\ isexcluded f excl = Ok false
  /\ exists ext, In ext exts /\ endswith (lower name) (lower ext) = true.
Proof.
  revert found; induction exts as [|e exts IH]; simpl; intros found.
  - intros [= <-]. split; [contradiction|]. now intros (_ & _ & ext & [] & _).
  - destruct (endswith (lower name) (lower e)) eqn:Ee.
    + destruct (isexcluded (join dirpath name) excl) as [[|]|err] eqn:Ex;
        simpl; [| |discriminate].
      * intros [= <-]. split; [contradiction|]. intros (-> & Hf & _).
        congruence.
      * destruct (extensions_loop excl dirpath name exts) as [found'|err];
          simpl; [|discriminate].
        intros [= <-]. split.
        -- intros [<-|Hin]; [eauto 6|].
           apply (IH _ eq_refl) in Hin as (-> & Hf & ext & Hin & He).
           eauto 7.
        -- intros (-> & _ & _). now left.
    + intros Hl. rewrite (IH _ Hl). split.
      * intros (-> & Hf & ext & Hin & He). eauto 7.
      * intros (-> & Hf & ext & [<-|Hin] & He); [congruence|eauto 6].
Qed.

Lemma extensions_loop_count (excl : list str) (dirpath name : str)
    (exts : list str) :
  extensions_loop excl dirpath name exts
  = match matching_extensions name exts with
    | [] => Ok []
    | _ :: _ =>
        rmap (fun excluded : bool =>
                if excluded then []
                else repeat (join dirpath name)
                       (List.length (matching_extensions name exts)))
             (isexcluded (join dirpath name) excl)
    end.
Proof.
  unfold matching_extensions.
  induction exts as [|e exts IH]; simpl; [reflexivity|].
  destruct (endswith (lower name) (lower e)); simpl; [|exact IH].
  rewrite IH.
  destruct (isexcluded (join dirpath name) excl) as [[|]|err]; simpl;
    try reflexivity.
  now destruct (filter _ exts).
Qed.

(** The files found, when discovery ends without an exception. *)
Lemma find_files_In (a : Args.t) (w : World) (excl parsefiles : list str)
    (f : str) :
  find_files a w excl = Ok parsefiles ->
  In f parsefiles <->
  exists dirpath dirnames files name ext,
    In (dirpath, dirnames, files) (os_walk w (abspath (Args.directory a)))
    /\ isexcluded dirpath excl = Ok false
    /\ In name files
    /\ In ext (Args.fileextensions a)
    /\ endswith (lower name) (lower ext) = true
    /\ f = join dirpath name
    /\ isexcluded f excl = Ok false.
Proof.
  unfold find_files. intros Hfind. rewrite (collect_ok _ _ _ Hfind). split.
  - intros ([[dirpath dirnames] files] & fx & Hw & Hd & Hin).
    destruct (isexcluded dirpath excl) as [[|]|err] eqn:Ed; simpl in Hd;
      [injection Hd as <-; contradiction| |discriminate].
    apply (collect_ok _ _ _ Hd) in Hin as (name & fn & Hn & Hl & Hin).
    apply (extensions_loop_spec _ _ _ _ _ _ Hl) in Hin
      as (-> & Hf & ext & He & Hend).
    exists dirpath, dirnames, files, name, ext. auto 8.
  - intros (dirpath & dirnames & files & name & ext
            & Hw & Hd & Hn & He & Hend & -> & Hf).
    destruct (collect_all _ _ _ Hfind _ Hw) as [fx Hfx].
    exists (dirpath, dirnames, files), fx. split; [exact Hw|].
    split; [exact Hfx|]. rewrite Hd in Hfx. simpl in Hfx.
    apply (collect_ok _ _ _ Hfx).
    destruct (collect_all _ _ _ Hfx _ Hn) as [fn Hfn].
    exists name, fn. split; [exact Hn|]. split; [exact Hfn|].
    apply (extensions_loop_spec _ _ _ _ _ _ Hfn). eauto 6.
Qed.

(** A file that was found is not excluded. *)
Lemma find_files_not_excluded (a : Args.t) (w : World)
    (excl parsefiles : list str) (f : str) :
  find_files a w excl = Ok parsefiles -> In f parsefiles ->
  isexcluded f excl = Ok false.
Proof.
  intros Hfind Hin. apply (find_files_In _ _ _ _ _ Hfind) in Hin
    as (dirpath & dirnames & files & name & ext & H'). tauto.
Qed.

(** Discovery has no other exception than the one of [isexcluded]. *)
Lemma find_files_raise (a : Args.t) (w : World) (excl : list str)
    (e : error) :
  find_files a w excl = Raise e ->
  e = ValueError
  /\ exists path ep, In ep excl /\ purepath_match path ep = None.
Proof.
  unfold find_files. intros Hfind.
  apply collect_raise in Hfind as ([[dirpath dirnames] files] & _ & Hd).
  destruct (isexcluded dirpath excl) as [[|]|err] eqn:Ed; simpl in Hd.
  - discriminate.
  - apply collect_raise in Hd as (name & _ & Hl).
    assert (Hx : forall exts,
               extensions_loop excl dirpath name exts = Raise e ->
               isexcluded (join dirpath name) excl = Raise e).
    { induction exts as [|x exts IH]; simpl; [discriminate|].
      destruct (endswith _ _); [|exact IH].
      destruct (isexcluded (join dirpath name) excl) as [[|]|err'] eqn:Ex;
        simpl; [discriminate| |now intros [= <-]].
      destruct (extensions_loop excl dirpath name exts); simpl;
        [discriminate|]. intros [= <-]. now apply IH. }
    apply Hx, isexcluded_raise in Hl as (-> & ep & Hin & Hm). eauto.
  - injection Hd as <-.
    apply isexcluded_raise in Ed as (-> & ep & Hin & Hm). eauto.
Qed.

Lemma config_exclude_paths_incl (ns : names) (excl excl' : list str) :
  config_exclude_paths ns excl = Ok excl' -> incl excl excl'.
Proof.
  unfold config_exclude_paths.
  destruct (_config ns) as [[|e yml]|]; [| |discriminate].
  - intros [= <-]. apply incl_refl.
  - destruct (assoc (cps "exclude_paths") (e :: yml)); intros [= <-].
    + now apply incl_appl, incl_refl.
    + apply incl_refl.
Qed.

Lemma mapfile_excluded (a : Args.t) :
  In (Args.fqcnmapfile a) (initial_exclude_paths a).
Proof.
  unfold initial_exclude_paths. apply in_or_app. right. now left.
Qed.

Lemma parsefiles_not_mapfile (a : Args.t) (w : World) (f : str) :
  In f (parsefiles_of a w) ->
  startswith (abspath f) (abspath (Args.fqcnmapfile a)) = false.
Proof.
  unfold parsefiles_of.
  destruct (config_exclude_paths _ _) as [excl|e] eqn:E; [|contradiction].
  destruct (find_files a w excl) as [parsefiles|e] eqn:Ef; [|contradiction].
  intros Hin. apply (find_files_not_excluded _ _ _ _ _ Ef) in Hin.
  apply (isexcluded_false _ (Args.fqcnmapfile a)) in Hin; [tauto|].
  apply (config_exclude_paths_incl _ _ _ E), mapfile_excluded.
Qed.

Lemma main_build_fails (a : Args.t) (w : World) out e :
  build a w = (out, Raise e) -> main a w = (out, Raise e).
Proof.
  intros Hb. unfold main. rewrite Hb. reflexivity.
Qed.

(** Past the builder, the run is the loop over the files found. *)
Lemma main_after_build (a : Args.t) (w : World) out d :
  build a w = (out, Ok d) ->
  main a w =
  let (out', r) :=
    match config_exclude_paths (load_config a w) (initial_exclude_paths a)
    with
    | Ok excl =>
        match find_files a w excl with
        | Ok _ => process_files a d (read_lines w) None (parsefiles_of a w)
        | Raise e => ([], Raise e)
        end
    | Raise e => ([], Raise e)
    end in
  (out ++ out', r).
Proof.
  intros Hb. unfold main. rewrite Hb. unfold bind at 1.
  rewrite bind_lift. unfold parsefiles_of.
  destruct (config_exclude_paths _ _) as [excl|e]; [|reflexivity].
  rewrite bind_lift. now destruct (find_files a w excl).
Qed.

Lemma main_events (a : Args.t) (w : World) :
  Forall (touches (parsefiles_of a w)) (events (main a w)).
Proof.
  pose proof (build_events a w) as Hb.
  apply (Forall_touches_mono [] (parsefiles_of a w)) in Hb; [|intros x []].
  destruct (build a w) as [out [d|e]] eqn:E.
  - rewrite (main_after_build _ _ _ _ E).
    destruct (config_exclude_paths _ _) as [excl|e];
      [destruct (find_files a w excl) as [parsefiles|e]|].
    + pose proof (process_files_events a d (parsefiles_of a w)
                    (read_lines w) None) as Hp.
      destruct (process_files _ _ _ _ _) as [out' r].
      apply Forall_app. split; [exact Hb|exact Hp].
    + simpl. rewrite app_nil_r. exact Hb.
    + simpl. rewrite app_nil_r. exact Hb.
  - rewrite (main_build_fails _ _ _ _ E). exact Hb.
Qed.

Lemma main_frame (a : Args.t) (w : World) (fs : filesystem) (p : str) :
  outcome (main a w) = Ok fs -> ~ In p (parsefiles_of a w) ->
  fs p = read_lines w p.
Proof.
  destruct (build a w) as [out [d|e]] eqn:E.
  - rewrite (main_after_build _ _ _ _ E).
    destruct (config_exclude_paths _ _) as [excl|e]; [|discriminate].
    destruct (find_files a w excl) as [parsefiles|e]; [|discriminate].
    pose proof (process_files_frame a d (parsefiles_of a w)
                  (read_lines w) fs None p) as Hp.
    destruct (process_files _ _ _ _ _) as [out' r]. exact Hp.
  - rewrite (main_build_fails _ _ _ _ E). discriminate.
Qed.

Lemma load_config_absent (a : Args.t) (w : World) :
  config_absent a w -> _config (load_config a w) = None.
Proof.
  unfold config_absent, load_config.
  destruct (Args.config a) as [[|c p]|]; try reflexivity.
  now intros ->.
Qed.

End Run.

(** ** Generation *)

(** A detail query that ends with a positive return code is skipped. *)
Lemma generate_one_failed (w : World) (d : dict) (modname : str) :
  (returncode (ansible_doc_j w modname) > 0)%Z ->
  generate_one w d modname = ([MsgErrorParsing modname], Ok d).
Proof.
  intros Hrc. unfold generate_one.
  apply Z.gtb_gt in Hrc. rewrite Hrc. reflexivity.
Qed.

(** So is a module whose documentation lacks one of the two fields. *)
Lemma generate_one_incomplete (w : World) (d : dict) (modname : str)
    (j : modjson) (md : moddict) :
  (returncode (ansible_doc_j w modname) <= 0)%Z ->
  stdout (ansible_doc_j w modname) = Some j ->
  assoc modname j = Some md ->
  match doc md with
  | Some o => collection o = None \/ module o = None
  | None => True
  end ->
  generate_one w d modname = ([], Ok d).
Proof.
  intros Hrc Hout Hj Hdoc. unfold generate_one.
  assert (Hle : (returncode (ansible_doc_j w modname) >? 0)%Z = false)
    by (rewrite Z.gtb_ltb; apply Z.ltb_ge; exact Hrc).
  rewrite Hle, Hout. destruct j as [|e j]; [discriminate|].
  rewrite bind_lift. cbn [json_loads]. rewrite Hj.
  destruct (doc md) as [o|]; [|reflexivity].
  destruct Hdoc as [-> | Hm]; [reflexivity|].
  rewrite Hm. now destruct (collection o).
Qed.

(** * Properties of the code *)

(** ** The module map *)

Lemma existsb_str_eqb_In (k : str) (l : list str) :
  existsb (str_eqb k) l = true <-> In k l.
Proof.
  rewrite existsb_exists. split.
  - intros (x & Hin & E). apply str_eqb_eq in E. now subst x.
  - intros Hin. exists k. auto using str_eqb_refl.
Qed.

Lemma dict_set_keys (k v : str) (d : dict) :
  keys (dict_set k v d) = if dict_mem k d then keys d else keys d ++ [k].
Proof.
  unfold dict_mem. induction d as [|[k' v'] d IH]; simpl; [reflexivity|].
  destruct (str_eqb k k') eqn:E; simpl; [reflexivity|].
  fold (keys (dict_set k v d)). fold (keys d). rewrite IH.
  now destruct (existsb (str_eqb k) (keys d)).
Qed.

Lemma dict_set_same (k v : str) (d : dict) :
  dict_get k d = Some v -> dict_set k v d = d.
Proof.
  induction d as [|[k' v'] d IH]; simpl; [discriminate|].
  destruct (str_eqb k k'); [now intros [= ->]|].
  intros H. now rewrite (IH H).
Qed.

Lemma dict_set_values (k v x : str) (d : dict) :
  In x (values (dict_set k v d)) -> x = v \/ In x (values d).
Proof.
  induction d as [|[k' v'] d IH]; simpl.
  - intros [<-|[]]. now left.
  - destruct (str_eqb k k'); simpl.
    + intros [<-|H]; auto.
    + intros [<-|H]; auto. destruct (IH H); auto.
Qed.

Lemma self_maps_lookup (vs : list str) (d : dict) (k : str) :
  dict_get k (fold_left self_map vs d)
  = if existsb (str_eqb k) vs then Some k else dict_get k d.
Proof.
  revert d; induction vs as [|x vs IH]; intros d; simpl; [reflexivity|].
  rewrite IH. unfold self_map.
  destruct (str_eqb k x) eqn:E; simpl.
  - apply str_eqb_eq in E. subst x. rewrite dict_get_set_same.
    now destruct (existsb (str_eqb k) vs).
  - apply str_eqb_neq in E. now rewrite dict_get_set_other.
Qed.

Lemma self_maps_values (vs : list str) (d : dict) (x : str) :
  In x (values (fold_left self_map vs d)) -> In x vs \/ In x (values d).
Proof.
  revert d; induction vs as [|v vs IH]; intros d; simpl; [now right|].
  intros H. destruct (IH _ H) as [Hin|Hin]; [auto|].
  unfold self_map in Hin. apply dict_set_values in Hin as [->|Hin]; auto.
Qed.

Lemma self_maps_fixed_point (vs : list str) (d : dict) :
  (forall v, In v vs -> dict_get v d = Some v) -> fold_left self_map vs d = d.
Proof.
  induction vs as [|v vs IH]; intros H; simpl; [reflexivity|].
  unfold self_map at 2. rewrite dict_set_same by (apply H; now left).
  apply IH. intros x Hx. apply H. now right.
Qed.

Lemma self_maps_keys (vs : list str) (d : dict) :
  exists l, keys (fold_left self_map vs d) = keys d ++ l
            /\ incl l vs
            /\ (NoDup (keys d) -> NoDup (keys d ++ l)).
Proof.
  revert d; induction vs as [|v vs IH]; intros d; simpl.
  - exists []. rewrite app_nil_r. repeat split; auto. apply incl_refl.
  - destruct (IH (self_map d v)) as (l & Hk & Hincl & Hnd).
    assert (Ek : keys (self_map d v)
                 = if dict_mem v d then keys d else keys d ++ [v])
      by apply dict_set_keys.
    rewrite Ek in Hk, Hnd.
    destruct (dict_mem v d) eqn:Em.
    + exists l. repeat split; auto. now apply incl_tl.
    + exists (v :: l). rewrite Hk, <- app_assoc. simpl.
      split; [reflexivity|]. split.
      * apply incl_cons; [now left|now apply incl_tl].
      * intros Hd. rewrite <- app_assoc in Hnd. apply Hnd.
        apply NoDup_app; [exact Hd|repeat constructor; intros []|].
        intros x Hx [<-|[]]. unfold dict_mem in Em.
        apply existsb_str_eqb_In in Hx. congruence.
Qed.

(** X1.  What lines 176-177 do to every key: a key that is a value of the
    loaded map maps to itself afterwards, whatever it mapped to before; every
    other key keeps its entry, and a text that was neither key nor value is
    still no key. *)
Theorem add_self_mappings_lookup (d0 : dict) (k : str) :
  dict_get k (add_self_mappings d0)
  = if existsb (str_eqb k) (values d0) then Some k else dict_get k d0.
Proof.
  unfold add_self_mappings.
  change (fun d fqcn => dict_set fqcn fqcn d) with self_map.
  apply self_maps_lookup.
Qed.

(** X2.  Adding the self-mappings twice is adding them once: the map a run
    uses is a fixed point of lines 176-177. *)
Theorem add_self_mappings_idempotent (d0 : dict) :
  add_self_mappings (add_self_mappings d0) = add_self_mappings d0.
Proof.
  unfold add_self_mappings at 1.
  change (fun d fqcn => dict_set fqcn fqcn d) with self_map.
  apply self_maps_fixed_point. intros v Hv.
  unfold add_self_mappings in *.
  change (fun d fqcn => dict_set fqcn fqcn d) with self_map in *.
  apply self_maps_values in Hv as [Hv|Hv]; now apply self_maps_cover.
Qed.

(** X3.  The self-mappings leave the keys of the loaded map where they were,
    at the front of the alternation, and put the new keys, all of them values
    of the loaded map, after them; no key comes twice when none did. *)
Theorem add_self_mappings_keys (d0 : dict) :
  exists added,
    keys (add_self_mappings d0) = keys d0 ++ added
    /\ incl added (values d0)
    /\ (NoDup (keys d0) -> NoDup (keys (add_self_mappings d0))).
Proof.
  unfold add_self_mappings.
  change (fun d fqcn => dict_set fqcn fqcn d) with self_map.
  destruct (self_maps_keys (values d0) d0) as (l & Hk & Hincl & Hnd).
  exists l. rewrite Hk. auto.
Qed.

Lemma add_self_mappings_keys_witness :
  NoDup (keys (add_self_mappings
                 [(cps "mod", cps "ns.coll.sub.mod");
                  (cps "sub", cps "ns.coll.sub")])).
Proof.
  destruct (add_self_mappings_keys
              [(cps "mod", cps "ns.coll.sub.mod");
               (cps "sub", cps "ns.coll.sub")]) as (added & _ & _ & Hnd).
  apply Hnd. repeat constructor; simpl; intuition discriminate.
Defined.

(** ** Generation *)

(** The text up to the first occurrence of a separator is determined. *)
Lemma first_separator_unique (sep : char) (t1 t2 r1 r2 : str) :
  ~ In sep t1 -> ~ In sep t2 ->
  t1 ++ sep :: r1 = t2 ++ sep :: r2 -> t1 = t2 /\ r1 = r2.
Proof.
  revert t2. induction t1 as [|a t1 IH]; intros [|b t2] H1 H2 E; simpl in *.
  - now injection E.
  - injection E as <- _. exfalso. apply H2. now left.
  - injection E as -> _. exfalso. apply H1. now left.
  - injection E as -> E.
    destruct (IH t2) as [-> ->]; auto.
Qed.

Lemma has_dot_In (s : str) : has_dot s = false <-> ~ In c_dot s.
Proof.
  unfold has_dot. split.
  - intros H Hin. assert (existsb (N.eqb c_dot) s = true); [|congruence].
    apply existsb_exists. exists c_dot. auto using N.eqb_refl.
  - intros H. destruct (existsb (N.eqb c_dot) s) eqn:E; [|reflexivity].
    apply existsb_exists in E as (x & Hin & Ex). apply N.eqb_eq in Ex.
    subst x. contradiction.
Qed.

(** [s.split('.')] gives the pieces between the dots: the last piece has no
    dot, and the pieces before it, each with its dot, make up the rest. *)
Lemma split_dot_pieces (s : str) :
  exists segs seg,
    split_dot s = segs ++ [seg] /\ has_dot seg = false /\
    s = List.concat (map (fun x => x ++ [c_dot]) segs) ++ seg.
Proof.
  induction s as [|c s (segs & seg & Hs & Hd & Es)]; simpl.
  - exists [], []. auto.
  - destruct (c =? c_dot) eqn:Ec.
    + apply N.eqb_eq in Ec. subst c.
      exists ([] :: segs), seg. rewrite Hs. simpl. now rewrite <- Es.
    + rewrite Hs. destruct segs as [|x segs]; simpl.
      * exists [], (c :: seg). simpl in Es. subst s.
        split; [reflexivity|]. split; [|reflexivity].
        apply has_dot_In. intros [E|Hin].
        -- subst c. rewrite N.eqb_refl in Ec. discriminate.
        -- apply has_dot_In in Hd. contradiction.
      * exists ((c :: x) :: segs), seg. simpl in *. now rewrite <- Es.
Qed.

(** The short name of line 157: the part of the name after its last dot. *)
Lemma short_name_spec (c m : str) :
  let fqcn := c ++ [c_dot] ++ m in
  let short := last (split_dot fqcn) [] in
  has_dot short = false
  /\ (exists p, fqcn = p ++ c_dot :: short)
  /\ (has_dot m = false -> short = m).
Proof.
  intros fqcn short.
  destruct (split_dot_pieces fqcn) as (segs & seg & Hs & Hd & Es).
  assert (Hshort : short = seg) by (unfold short; rewrite Hs; apply last_last).
  rewrite Hshort. clear Hshort short.
  assert (Hp : exists p, fqcn = p ++ c_dot :: seg).
  { destruct segs as [|x segs] using rev_ind.
    - simpl in Es. exfalso. apply has_dot_In in Hd. apply Hd.
      rewrite <- Es. unfold fqcn. apply in_or_app. right. now left.
    - exists (List.concat (map (fun x => x ++ [c_dot]) segs) ++ x).
      rewrite Es, map_app, List.concat_app. simpl.
      now rewrite app_nil_r, <- !app_assoc. }
  split; [exact Hd|]. split; [exact Hp|].
  intros Hm. destruct Hp as (p & Ep). unfold fqcn in Ep. simpl in Ep.
  apply (f_equal (@rev char)) in Ep.
  rewrite !rev_app_distr in Ep. simpl in Ep. rewrite <- !app_assoc in Ep.
  simpl in Ep.
  apply first_separator_unique in Ep as [Ep _].
  - apply (f_equal (@rev char)) in Ep. now rewrite !rev_involutive in Ep.
  - rewrite <- in_rev. now apply has_dot_In.
  - rewrite <- in_rev. now apply has_dot_In.
Qed.

Lemma cache_writes_app (o1 o2 : list event) :
  cache_writes (o1 ++ o2) = cache_writes o1 ++ cache_writes o2.
Proof. unfold cache_writes. apply flat_map_app. Qed.

(** What one turn of the loop can do: leave the map as it is, stop the run
    on output that is no JSON, or set one key. *)
Lemma generate_one_cases (w : World) (d : dict) (modname : str) :
  (exists ev, generate_one w d modname = (ev, Ok d) /\ cache_writes ev = [])
  \/ generate_one w d modname = ([], Raise JSONDecodeError)
  \/ (exists short fqcn,
        generate_one w d modname
        = ([MsgMapped modname short fqcn], Ok (dict_set short fqcn d))).
Proof.
  unfold generate_one.
  destruct (returncode (ansible_doc_j w modname) >? 0)%Z;
    [left; eexists; split; reflexivity|].
  destruct (stdout (ansible_doc_j w modname)) as [j|];
    [|right; left; reflexivity].
  rewrite bind_lift. cbn [json_loads].
  destruct j as [|e j]; [left; eexists; split; reflexivity|].
  destruct (assoc modname (e :: j)) as [md|];
    [|left; eexists; split; reflexivity].
  destruct (doc md) as [o|]; [|left; eexists; split; reflexivity].
  destruct (collection o) as [c|]; [|left; eexists; split; reflexivity].
  destruct (module o) as [m|]; [|left; eexists; split; reflexivity].
  right. right. eexists _, _. reflexivity.
Qed.

Lemma generate_loop_keys (w : World) (modnames : list str) (d d' : dict) :
  outcome (generate_loop w d modnames) = Ok d' ->
  cache_writes (events (generate_loop w d modnames)) = []
  /\ exists added,
       keys d' = keys d ++ added
       /\ (NoDup (keys d) -> NoDup (keys d')).
Proof.
  revert d; induction modnames as [|m ms IH]; intros d; simpl generate_loop.
  - intros [= <-]. split; [reflexivity|]. exists []. now rewrite app_nil_r.
  - rewrite outcome_bind, events_bind.
    destruct (generate_one_cases w d m)
      as [(ev & -> & Hev) | [-> | (short & fqcn & ->)]];
      cbn [outcome events fst snd]; try discriminate.
    + intros H. destruct (IH _ H) as (Hc & added & Hk & Hnd).
      rewrite cache_writes_app, Hev, Hc. split; [reflexivity|].
      exists added. auto.
    + intros H. destruct (IH _ H) as (Hc & added & Hk & Hnd).
      rewrite cache_writes_app, Hc. split; [reflexivity|].
      rewrite dict_set_keys in Hk, Hnd.
      destruct (dict_mem short d) eqn:Em; [exists added; auto|].
      exists (short :: added).
      split; [now rewrite Hk, <- app_assoc|]. intros Hd. apply Hnd.
      apply NoDup_app; [exact Hd|repeat constructor; intros []|].
      intros x Hx [<-|[]]. unfold dict_mem in Em.
      apply existsb_str_eqb_In in Hx. congruence.
Qed.

(** X4.  A module whose detail query gives both fields gets one entry: its
    key is the part of [collection.module] after the last dot, so a key
    without a dot, and it is the module name itself when that has no dot;
    its value is [collection.module].  The entry is there afterwards and
    every other key has what it had. *)
Theorem generated_entry (w : World) (d : dict) (modname : str)
    (j : modjson) (md : moddict) (o : docobj) (c m : str) :
  (returncode (ansible_doc_j w modname) <= 0)%Z ->
  stdout (ansible_doc_j w modname) = Some j ->
  assoc modname j = Some md -> doc md = Some o ->
  collection o = Some c -> module o = Some m ->
  exists short d',
    generate_one w d modname
    = ([MsgMapped modname short (c ++ [c_dot] ++ m)], Ok d')
    /\ has_dot short = false
    /\ (exists p, c ++ [c_dot] ++ m = p ++ c_dot :: short)
    /\ (has_dot m = false -> short = m)
    /\ dict_get short d' = Some (c ++ [c_dot] ++ m)
    /\ forall k, k <> short -> dict_get k d' = dict_get k d.
Proof.
  intros Hrc Hout Hj Hdoc Hc Hm.
  destruct (short_name_spec c m) as (Hd & Hp & Hs).
  exists (last (split_dot (c ++ [c_dot] ++ m)) []),
         (dict_set (last (split_dot (c ++ [c_dot] ++ m)) [])
                   (c ++ [c_dot] ++ m) d).
  split.
  - unfold generate_one.
    assert (Hle : (returncode (ansible_doc_j w modname) >? 0)%Z = false)
      by (rewrite Z.gtb_ltb; apply Z.ltb_ge; exact Hrc).
    rewrite Hle, Hout, bind_lift. cbn [json_loads].
    destruct j as [|e j]; [discriminate|].
    rewrite Hj, Hdoc, Hc, Hm. reflexivity.
  - repeat split; auto using dict_get_set_same.
    intros k Hk. now apply dict_get_set_other.
Qed.

Lemma generated_entry_witness :
  exists short d',
    generate_one (example_world None 0
                    {| returncode := 0; stdout := Some foo_detail |})
      [] (cps "foo")
    = ([MsgMapped (cps "foo") short (cps "ns.coll" ++ [c_dot] ++ cps "foo")],
       Ok d')
    /\ dict_get short d' = Some (cps "ns.coll" ++ [c_dot] ++ cps "foo").
Proof.
  destruct (generated_entry
              (example_world None 0
                 {| returncode := 0; stdout := Some foo_detail |})
              [] (cps "foo") foo_detail
              {| doc := Some {| collection := Some (cps "ns.coll");
                                module := Some (cps "foo") |} |}
              {| collection := Some (cps "ns.coll");
                 module := Some (cps "foo") |}
              (cps "ns.coll") (cps "foo")
              (Z.le_refl 0) eq_refl eq_refl eq_refl eq_refl eq_refl)
    as (short & d' & H1 & _ & _ & _ & H2 & _).
  exists short, d'. auto.
Defined.

(** X5.  Generation only adds to the map it starts from: the keys that were
    there stay where they were, the new short names come after them, and no
    key comes twice when none did.  With an update asked for, the keys of
    the loaded cache therefore keep their place in front of the new ones. *)
Theorem generation_keeps_keys (w : World) (modnames : list str) (d d' : dict) :
  outcome (generate_loop w d modnames) = Ok d' ->
  exists added,
    keys d' = keys d ++ added
    /\ (NoDup (keys d) -> NoDup (keys d')).
Proof.
  intros H. now destruct (generate_loop_keys _ _ _ _ H).
Qed.

Lemma generation_keeps_keys_witness :
  exists added,
    keys [(cps "bar", cps "x.y.bar"); (cps "foo", cps "ns.coll.foo")]
    = keys [(cps "bar", cps "x.y.bar")] ++ added.
Proof.
  destruct (generation_keeps_keys
              (example_world None 0
                 {| returncode := 0; stdout := Some foo_detail |})
              [cps "foo"] [(cps "bar", cps "x.y.bar")]
              [(cps "bar", cps "x.y.bar"); (cps "foo", cps "ns.coll.foo")]
              eq_refl) as (added & Hk & _).
  now exists added.
Defined.

Lemma build_cases (a : Args.t) (w : World) (out : list event)
    (d : dict) :
  build a w = (out, Ok d) ->
  (Args.updatefqcnmapfile a = false
   /\ out = []
   /\ exists c, read_fqcnmapfile w (Args.fqcnmapfile a) = Some c
                /\ d = add_self_mappings c)
  \/ ((read_fqcnmapfile w (Args.fqcnmapfile a) = None
       \/ Args.updatefqcnmapfile a = true)
      /\ exists g, cache_writes out = [g] /\ d = add_self_mappings g
                   /\ In (CacheWritten (Args.fqcnmapfile a) g) out).
Proof.
  unfold build.
  assert (Hgen : forall d0 o g,
             generate a w d0 = (o, Ok g) ->
             cache_writes o = [g]
             /\ In (CacheWritten (Args.fqcnmapfile a) g) o).
  { intros d0 o g. unfold generate.
    destruct (negb (returncode (ansible_doc_lj w) =? 0)%Z);
      [discriminate|].
    destruct (stdout (ansible_doc_lj w)) as [ms|]; [|discriminate].
    cbn [json_loads]. rewrite bind_lift.
    pose proof (generate_loop_keys w ms d0) as Hl.
    destruct (generate_loop w d0 ms) as [ol [dl|e]]; [|discriminate].
    destruct (Hl dl eq_refl) as [Hc _]. cbn [events fst] in Hc.
    simpl. intros [= <- <-]. split.
    - unfold cache_writes in *. simpl. now rewrite flat_map_app, Hc.
    - right. apply in_or_app. right. now left. }
  destruct (read_fqcnmapfile w (Args.fqcnmapfile a)) as [c|]; simpl negb;
    cbv beta iota.
  - destruct (Args.updatefqcnmapfile a) eqn:Eu; simpl orb; cbv iota.
    + destruct (generate a w c) as [o [g|e]] eqn:Eg; simpl; [|discriminate].
      intros [= <- <-]. right. split; [now right|].
      destruct (Hgen _ _ _ Eg) as [Hc Hin].
      exists g. rewrite app_nil_r. auto.
    + simpl. intros [= <- <-]. left. eauto.
  - simpl orb. cbv iota.
    destruct (generate a w []) as [o [g|e]] eqn:Eg; simpl; [|discriminate].
    intros [= <- <-]. right. split; [now left|].
    destruct (Hgen _ _ _ Eg) as [Hc Hin].
    exists g. rewrite app_nil_r. auto.
Qed.


(** X6.  What a run uses and what it writes.  Without generation the run
    prints nothing and dumps no map: it uses the cache with its
    self-mappings.  With generation it dumps one map, the generated one as it
    is before lines 176-177, and uses that map with its self-mappings: the
    self-mappings never reach the map file through the dump. *)
Theorem build_uses_and_writes (a : Args.t) (w : World) (out : list event)
    (d : dict) :
  build a w = (out, Ok d) ->
  (Args.updatefqcnmapfile a = false
   /\ out = []
   /\ exists c, read_fqcnmapfile w (Args.fqcnmapfile a) = Some c
                /\ d = add_self_mappings c)
  \/ ((read_fqcnmapfile w (Args.fqcnmapfile a) = None
       \/ Args.updatefqcnmapfile a = true)
      /\ exists g, cache_writes out = [g] /\ d = add_self_mappings g
                   /\ In (CacheWritten (Args.fqcnmapfile a) g) out).
Proof. apply build_cases. Qed.

Lemma build_uses_and_writes_witness :
  exists g,
    cache_writes
      (events (build scan_args
                 (example_world None 0
                    {| returncode := 0; stdout := Some foo_detail |}))) = [g]
    /\ g = foo_cache.
Proof.
  destruct (build_uses_and_writes scan_args
              (example_world None 0
                 {| returncode := 0; stdout := Some foo_detail |})
              _ _ eq_refl) as [(_ & Hout & _) | (_ & g & Hc & _ & _)].
  - discriminate Hout.
  - exists g. split; [exact Hc|]. now injection Hc.
Defined.

(** ** Discovery *)

(** X7.  The files found are those the loops of lines 199-208 describe:
    when discovery ends without an exception, a file is found exactly when
    the walk lists its name in a directory that is not excluded, the name
    ends, letter case apart, with one of the extensions, and the joined path
    is not excluded itself. *)
Theorem find_files_spec `{OsPath} (a : Args.t) (w : World)
    (excl parsefiles : list str) (f : str) :
  find_files a w excl = Ok parsefiles ->
  In f parsefiles <->
  exists dirpath dirnames files name ext,
    In (dirpath, dirnames, files) (os_walk w (abspath (Args.directory a)))
    /\ isexcluded dirpath excl = Ok false
    /\ In name files
    /\ In ext (Args.fileextensions a)
    /\ endswith (lower name) (lower ext) = true
    /\ f = join dirpath name
    /\ isexcluded f excl = Ok false.
Proof. apply find_files_In. Qed.

Lemma find_files_spec_witness :
  In (cps "/opt/fqcn/tasks.yml")
     [cps "/opt/fqcn/fqcn.yml"; cps "/opt/fqcn/tasks.yml"]
  <-> exists dirpath dirnames files name ext,
        In (dirpath, dirnames, files)
           (os_walk (example_world (Some foo_cache) 0 no_detail)
              (cps "/opt/fqcn"))
        /\ @isexcluded posix dirpath [cps ".git"] = Ok false
        /\ In name files
        /\ In ext [cps "yml"; cps "yaml"]
        /\ endswith name ext = true
        /\ cps "/opt/fqcn/tasks.yml" = dirpath ++ cps "/" ++ name
        /\ @isexcluded posix (cps "/opt/fqcn/tasks.yml") [cps ".git"]
           = Ok false.
Proof.
  apply (@find_files_spec posix scan_args
           (example_world (Some foo_cache) 0 no_detail) [cps ".git"]
           [cps "/opt/fqcn/fqcn.yml"; cps "/opt/fqcn/tasks.yml"]
           (cps "/opt/fqcn/tasks.yml")).
  reflexivity.
Defined.

(** X8.  Line 208 appends without leaving the loop over the extensions: a
    file that is not excluded is listed once for every extension its name
    ends with, so a name that ends with two of them is parsed twice; an
    excluded file is not listed at all.  The exclusion test is made only
    for a name that ends with an extension, and its exception ends the
    loop. *)
Theorem file_listed_per_extension `{OsPath} (excl : list str)
    (dirpath name : str) (exts : list str) :
  extensions_loop excl dirpath name exts
  = match matching_extensions name exts with
    | [] => Ok []
    | _ :: _ =>
        rmap (fun excluded : bool =>
                if excluded then []
                else repeat (join dirpath name)
                       (List.length (matching_extensions name exts)))
             (isexcluded (join dirpath name) excl)
    end.
Proof. apply extensions_loop_count. Qed.

(** The entries of the list are tested in order: an empty entry excludes
    the path when [match] raises for no entry before it. *)
Lemma isexcluded_empty_entry `{OsPath} (path : str) (pre post : list str) :
  (forall ep, In ep pre -> purepath_match path ep <> None) ->
  isexcluded path (pre ++ [] :: post) = Ok true.
Proof.
  unfold isexcluded. cbv zeta.
  induction pre as [|ep pre IH]; intros Hpre; simpl.
  - reflexivity.
  - unfold orelse at 1 2.
    destruct (startswith (abspath path) ep); [reflexivity|].
    destruct (startswith (abspath path) (abspath ep)); [reflexivity|].
    destruct (purepath_match path ep) as [m|] eqn:Em;
      [|now destruct (Hpre ep (or_introl eq_refl))].
    simpl. destruct (m || _ || _); [reflexivity|].
    apply IH. intros ep' Hin. apply Hpre. now right.
Qed.

(** X9.  Every path starts with the empty text.  With an empty entry in
    the exclusion list no path is found not excluded, and no file is ever
    found: the test of a path says excluded or ends with the [ValueError] of
    an entry before the empty one, and discovery gives no file or ends with
    that [ValueError].  When [match] raises for no entry before the empty
    one, every path is excluded, and when it raises for no entry at all,
    discovery ends with no file. *)
Theorem empty_exclusion_excludes_all `{OsPath} (a : Args.t) (w : World)
    (excl : list str) :
  In [] excl ->
  (forall path,
      isexcluded path excl = Ok true
      \/ isexcluded path excl = Raise ValueError)
  /\ (find_files a w excl = Ok [] \/ find_files a w excl = Raise ValueError)
  /\ (forall path pre post,
         excl = pre ++ [] :: post ->
         (forall ep, In ep pre -> purepath_match path ep <> None) ->
         isexcluded path excl = Ok true)
  /\ ((forall path ep, In ep excl -> purepath_match path ep <> None) ->
      find_files a w excl = Ok []).
Proof.
  intros Hin.
  assert (Hnot : forall path, isexcluded path excl <> Ok false).
  { intros path Hex.
    now destruct (isexcluded_false _ _ _ Hex Hin) as [Hs _]. }
  assert (Hfind : find_files a w excl = Ok []
                  \/ find_files a w excl = Raise ValueError).
  { destruct (find_files a w excl) as [[|f fs]|e] eqn:E.
    - now left.
    - exfalso. apply (Hnot f).
      apply (find_files_not_excluded _ _ _ _ _ E). now left.
    - right. now destruct (find_files_raise _ _ _ _ E) as [-> _]. }
  split; [|split; [exact Hfind|split]].
  - intros path.
    destruct (isexcluded path excl) as [[|]|e] eqn:E.
    + now left.
    + now destruct (Hnot path).
    + right. now destruct (isexcluded_raise _ _ _ E) as [-> _].
  - intros path pre post -> Hpre. now apply isexcluded_empty_entry.
  - intros Hall. destruct Hfind as [Hf|Hf]; [exact Hf|].
    destruct (find_files_raise _ _ _ _ Hf) as (_ & path & ep & Hep & Hm).
    now destruct (Hall path ep Hep).
Qed.

Lemma empty_exclusion_excludes_all_witness :
  @find_files posix scan_args (example_world (Some foo_cache) 0 no_detail)
    [cps ".git"; []] = Ok [].
Proof.
  apply (@empty_exclusion_excludes_all posix scan_args
           (example_world (Some foo_cache) 0 no_detail) [cps ".git"; []]).
  - right. now left.
  - discriminate.
Defined.

(** X10.  No file of a run passes any of the five tests of [isexcluded]
    against an entry of the exclusion list: not against an exclusion of the
    command line, a general one or the map file, and not against the absolute
    path of an exclusion of the configuration file. *)
Theorem excluded_never_parsed `{OsPath} (a : Args.t) (w : World) (f : str) :
  In f (parsefiles_of a w) ->
  (forall ep,
      In ep (Args.exclude_paths a) \/ In ep _general_exclude_paths
      \/ ep = Args.fqcnmapfile a ->
      startswith (abspath f) ep = false
      /\ startswith (abspath f) (abspath ep) = false
      /\ purepath_match f ep = Some false
      /\ fnmatch (abspath f) ep = false
      /\ fnmatch_purepath f ep = false)
  /\ (forall yml eps e,
         _config (load_config a w) = Some yml ->
         assoc (cps "exclude_paths") yml = Some eps -> In e eps ->
         startswith (abspath f) (abspath e) = false).
Proof.
  unfold parsefiles_of.
  destruct (config_exclude_paths (load_config a w) (initial_exclude_paths a))
    as [excl|e0] eqn:E; [|contradiction].
  destruct (find_files a w excl) as [parsefiles|e0] eqn:Ef; [|contradiction].
  intros Hin. apply (find_files_not_excluded _ _ _ _ _ Ef) in Hin. split.
  - intros ep Hep. apply (isexcluded_false f ep excl Hin).
    apply (config_exclude_paths_incl _ _ _ E).
    unfold initial_exclude_paths. rewrite !in_app_iff.
    destruct Hep as [Hep|[Hep|Hep]]; [auto|auto|].
    right. left. now symmetry.
  - intros yml eps e Hc Ha He.
    apply (isexcluded_false f (abspath e) excl Hin).
    unfold config_exclude_paths in E. rewrite Hc in E.
    destruct yml as [|y yml]; [discriminate|].
    rewrite Ha in E. injection E as <-.
    apply in_or_app. right. now apply in_map.
Qed.

Lemma excluded_never_parsed_witness :
  startswith (cps "/opt/fqcn/tasks.yml") (cps ".git") = false.
Proof.
  destruct (@excluded_never_parsed posix scan_args
              (example_world (Some foo_cache) 0 no_detail)
              (cps "/opt/fqcn/tasks.yml")) as [Hex _].
  - vm_compute. auto.
  - apply (Hex (cps ".git")). right. left. right. now left.
Defined.

(** ** The loop over the lines *)

(** One turn of the loop of lines 223-250, with what it prints. *)
Lemma process_lines_step (a : Args.t) (d : dict) (f : str) (st : rstate)
    (line : str) (lines : list str) :
  process_lines a d f st (line :: lines)
  = match rewrite_line d st line with
    | Raise e => ([], Raise e)
    | Ok (st', nline, mark) =>
        (Symbol mark
           :: (if Args.writefiles a then [LineWritten f nline] else [])
           ++ events (process_lines a d f st' lines),
         match outcome (process_lines a d f st' lines) with
         | Ok (out, st'') => Ok (nline :: out, st'')
         | Raise e => Raise e
         end)
    end.
Proof.
  rewrite process_lines_cons.
  destruct (rewrite_line d st line) as [[[st' nline] mark]|e]; [|reflexivity].
  rewrite bind_lift.
  destruct (process_lines a d f st' lines) as [ev [[out st'']|e]];
    destruct (Args.writefiles a); simpl; rewrite ?app_nil_r; reflexivity.
Qed.

Lemma marks_cons_symbol (c : char) (out : list event) :
  marks (Symbol c :: out) = c :: marks out.
Proof. reflexivity. Qed.

Lemma marks_app (o1 o2 : list event) : marks (o1 ++ o2) = marks o1 ++ marks o2.
Proof. unfold marks. apply flat_map_app. Qed.

Lemma written_app (f : str) (o1 o2 : list event) :
  written f (o1 ++ o2) = written f o1 ++ written f o2.
Proof. unfold written. apply flat_map_app. Qed.

Lemma process_lines_report (a : Args.t) (d : dict) (f : str)
    (lines : list str) (st : rstate) :
  match outcome (process_lines a d f st lines) with
  | Ok (changed, _) =>
      List.length changed = List.length lines
      /\ List.length (marks (events (process_lines a d f st lines)))
         = List.length lines
      /\ written f (events (process_lines a d f st lines))
         = (if Args.writefiles a then changed else [])
  | Raise _ =>
      (List.length (marks (events (process_lines a d f st lines)))
       < List.length lines)%nat
      /\ (List.length (written f (events (process_lines a d f st lines)))
          < List.length lines)%nat
  end.
Proof.
  revert st; induction lines as [|l ls IH]; intros st.
  - simpl. destruct (Args.writefiles a); auto.
  - rewrite process_lines_step.
    destruct (rewrite_line d st l) as [[[st' nline] mark]|e];
      cbn [outcome events fst snd]; [|simpl; lia].
    specialize (IH st').
    rewrite marks_cons_symbol.
    assert (Hw : forall ev,
               written f (Symbol mark
                  :: (if Args.writefiles a then [LineWritten f nline] else [])
                  ++ ev)
               = (if Args.writefiles a then [nline] else []) ++ written f ev).
    { intros ev. destruct (Args.writefiles a); simpl; [|reflexivity].
      unfold written at 1. simpl. now rewrite str_eqb_refl. }
    assert (Hm : forall ev,
               marks ((if Args.writefiles a then [LineWritten f nline] else [])
                      ++ ev) = marks ev)
      by (intros ev; destruct (Args.writefiles a); reflexivity).
    rewrite Hw, Hm.
    destruct (outcome (process_lines a d f st' ls)) as [[out st'']|e].
    + destruct IH as (H1 & H2 & H3). simpl List.length.
      rewrite H1, H2, H3. repeat split.
      now destruct (Args.writefiles a).
    + destruct IH as (H1 & H2). simpl List.length. split; [lia|].
      rewrite length_app. destruct (Args.writefiles a); simpl; lia.
Qed.

(** X11.  The loop over the lines of a file that goes through gives as
    many lines as it read and prints one progress mark for each; with the
    files written back, the lines printed into the file are the new lines
    in order, and otherwise no line is printed into it. *)
Theorem one_mark_and_one_line_per_line (a : Args.t) (d : dict) (f : str)
    (lines : list str) (st st' : rstate) (out : list event)
    (changed : list str) :
  process_lines a d f st lines = (out, Ok (changed, st')) ->
  List.length changed = List.length lines
  /\ List.length (marks out) = List.length lines
  /\ written f out = (if Args.writefiles a then changed else []).
Proof.
  intros H. pose proof (process_lines_report a d f lines st) as R.
  rewrite H in R. exact R.
Qed.

Lemma one_mark_and_one_line_per_line_witness :
  List.length [cps "- ns.coll.foo:" ++ [c_newline]]
  = List.length [cps "- foo:" ++ [c_newline]].
Proof.
  destruct (one_mark_and_one_line_per_line write_args foo_map
              (cps "tasks.yml") [cps "- foo:" ++ [c_newline]]
              (initial_rstate foo_map) (locked_rstate (cps "- ") foo_map)
              [Symbol c_star;
               LineWritten (cps "tasks.yml")
                 (cps "- ns.coll.foo:" ++ [c_newline])]
              [cps "- ns.coll.foo:" ++ [c_newline]] eq_refl) as [H _].
  exact H.
Defined.

(** X12.  When the loop over the lines of a file ends with an exception,
    fewer marks were printed than the file has lines and, with the files
    written back, fewer lines were printed into the file than it had: the
    file is left cut short at the line that failed. *)
Theorem failed_file_is_cut_short (a : Args.t) (d : dict) (f : str)
    (lines : list str) (st : rstate) (out : list event) (e : error) :
  process_lines a d f st lines = (out, Raise e) ->
  (List.length (marks out) < List.length lines)%nat
  /\ (List.length (written f out) < List.length lines)%nat.
Proof.
  intros H. pose proof (process_lines_report a d f lines st) as R.
  rewrite H in R. exact R.
Qed.

Lemma failed_file_is_cut_short_witness :
  (List.length
     (written (cps "tasks.yml")
        [Symbol c_star;
         LineWritten (cps "tasks.yml") (cps "  - ansible.builtin.command: x")])
   < 2)%nat.
Proof.
  destruct (failed_file_is_cut_short write_args command_map
              (cps "tasks.yml")
              [cps "  - command: x";
               cps "  - ansible_builtin.command: echo hi"]
              (initial_rstate command_map)
              [Symbol c_star;
               LineWritten (cps "tasks.yml")
                 (cps "  - ansible.builtin.command: x")]
              (KeyError (cps "ansible_builtin.command")) eq_refl) as [_ H].
  exact H.
Defined.

(** ** One line, further *)

Lemma reachable_cases (d : dict) (st : rstate) (line : str) :
  reachable d st ->
  (is_matched st line = false /\ rewrite_line d st line = Ok (st, line, c_dot))
  \/ (exists w tok key rest,
         line = w ++ tok ++ c_colon :: rest /\ white_text w = true
         /\ In key (alternatives (keys d)) /\ match_text key tok = Some []
         /\ matched_token st line = Some tok
         /\ (forall w0, st = locked_rstate w0 d -> w = w0)
         /\ (st = initial_rstate d -> white_lang w)
         /\ rewrite_line d st line = rewrite_matched d w tok rest).
Proof.
  intros Hreach.
  destruct (is_matched st line) eqn:Hm;
    [right|left; auto using rewrite_line_unmatched].
  unfold is_matched in Hm. unfold matched_token.
  destruct Hreach as [|w0 Hw0]; simpl fqcnregex in *.
  - destruct (re_match (_fqcnregex d) line) as [[g rest]|] eqn:E;
      [|discriminate].
    destruct (rewrite_line_unlocked _ _ _ _ E)
      as (w & tok & key & -> & Hw & Hin & Hk & Hg & Hrw).
    exists w, tok, key, rest. repeat split; auto using white_lang_text.
    intros w0 [=].
  - destruct (re_match (locked_regex w0 d) line) as [[g rest]|] eqn:E;
      [|discriminate].
    destruct (rewrite_line_locked _ _ _ _ _ Hw0 E)
      as (tok & key & -> & Hin & Hk & Hg & Hrw).
    exists w0, tok, key, rest. repeat split; auto.
    + intros w1 [= Hsw _]. congruence.
    + intros [=].
Qed.

(** X13.  With a well-formed map the progress mark tells whether the text
    changed: a line comes out as it went in exactly when its mark is [.],
    and with another text exactly when its mark is [*]. *)
Theorem mark_tells_change (d : dict) (st st' : rstate) (line nline : str)
    (mark : char) :
  wf_map d = true -> reachable d st ->
  rewrite_line d st line = Ok (st', nline, mark) ->
  (mark = c_dot <-> nline = line) /\ (mark = c_star <-> nline <> line).
Proof.
  intros Hwf Hreach Hr.
  assert (Hmain : (mark = c_dot /\ nline = line)
                  \/ (mark = c_star /\ nline <> line)).
  { destruct (reachable_cases d st line Hreach)
      as [[_ Hu] | (w & tok & key & rest & -> & Hw & _ & _ & _ & _ & _ & Hrw)].
    - rewrite Hu in Hr. injection Hr as _ <- <-. now left.
    - rewrite Hrw in Hr.
      destruct (rewrite_matched_ok _ _ _ _ _ _ _ Hwf Hr)
        as (value & Hget & _ & ->).
      destruct (wf_map_get _ _ _ Hwf Hget) as [Hk Hv].
      rewrite (rewrite_matched_frame _ _ _ _ _ Hget (wf_value_plain _ Hv))
        in Hr.
      injection Hr as _ <-.
      destruct (str_eqb tok value) eqn:E.
      + apply str_eqb_eq in E. subst value. now left.
      + apply str_eqb_neq in E. right. split; [reflexivity|].
        intros Heq. apply app_inv_head in Heq.
        apply token_unique in Heq as [Heq _];
          auto using wf_key_no_colon, wf_value_key. }
  assert (Hne : c_dot <> c_star) by discriminate.
  destruct Hmain as [[-> ->] | [-> Hn]]; repeat split; intros; congruence.
Qed.

Lemma mark_tells_change_witness :
  c_star = c_star <-> cps "- ns.coll.foo:" <> cps "- foo:".
Proof.
  apply (mark_tells_change foo_map (initial_rstate foo_map)
           (locked_rstate (cps "- ") foo_map) (cps "- foo:")
           (cps "- ns.coll.foo:") c_star eq_refl (reach_initial foo_map)
           eq_refl).
Defined.

Lemma unindented_unmatched (d : dict) (st : rstate) (line : str) :
  reachable d st -> unindented line = true ->
  rewrite_line d st line = Ok (st, line, c_dot).
Proof.
  intros Hreach Hu.
  destruct (reachable_cases d st line Hreach)
    as [[_ H] | (w & tok & key & rest & -> & Hw & _)]; [exact H|].
  destruct w as [|c w]; [discriminate|].
  simpl in Hw. apply andb_true_iff in Hw as [Hc _].
  simpl in Hu. rewrite Hc in Hu. discriminate.
Qed.

(** X14.  The patterns ask for white space or a dash before the module name:
    with a map whose keys are module names or dotted names, a file whose
    lines all start at the first column, or are empty, comes out as it went
    in; in particular a key at the top level of a file is never rewritten.
    (A key with other special characters of [re] could end the group of
    the pattern and match such a line.) *)
Theorem unindented_lines_untouched (d : dict) (st : rstate) (lines : list str) :
  wf_keys d = true ->
  reachable d st -> forallb unindented lines = true ->
  rewrite_lines d st lines = Ok lines.
Proof.
  intros _ Hreach. induction lines as [|l ls IH]; simpl; [reflexivity|].
  intros H. apply andb_true_iff in H as [Hl Hls].
  rewrite (unindented_unmatched d st l Hreach Hl). simpl.
  now rewrite (IH Hls).
Qed.

Lemma unindented_lines_untouched_witness :
  rewrite_lines command_map (initial_rstate command_map)
    [cps "command: echo hi"; []; cps "ansible.builtin.command:"]
  = Ok [cps "command: echo hi"; []; cps "ansible.builtin.command:"].
Proof.
  apply (unindented_lines_untouched command_map (initial_rstate command_map)).
  - reflexivity.
  - constructor.
  - reflexivity.
Defined.

(** X15.  A value of the map that starts with a digit does not go into the
    line as it is: the digit is read as part of the group reference [\1] of
    the replacement.  With keys that are module names or dotted names and a
    value without a backslash (which would start an escape of its own in
    the replacement), either [re] refuses the replacement, and the run ends,
    or, when the value starts with two octal digits, the prefix and the two
    digits are replaced by the one character with that octal code. *)
Theorem digit_value_is_misread (d : dict) (st : rstate)
    (line tok : str) (c : char) (v : str) :
  wf_keys d = true ->
  forallb (fun x => negb (x =? c_backslash)) v = true ->
  reachable d st -> matched_token st line = Some tok ->
  dict_get tok d = Some (c :: v) -> is_digit c = true ->
  rewrite_line d st line = Raise ReError
  \/ exists c2 v' w rest mark,
       v = c2 :: v' /\ is_octdigit c = true /\ is_octdigit c2 = true
       /\ line = w ++ tok ++ c_colon :: rest /\ white_text w = true
       /\ rewrite_line d st line
          = Ok (locked_rstate w d,
                (64 + 8 * (c - 48) + (c2 - 48)) :: v' ++ c_colon :: rest,
                mark).
Proof.
  intros _ _ Hreach Hm Hget Hc.
  destruct (reachable_cases d st line Hreach)
    as [[Hu _] | (w & tok' & key & rest & -> & Hw & _ & _ & Hm' & _ & _ & Hrw)].
  - unfold is_matched in Hu. unfold matched_token in Hm.
    destruct (re_match (fqcnregex st) line); discriminate.
  - rewrite Hm in Hm'. injection Hm' as <-.
    rewrite Hrw. unfold rewrite_matched. rewrite Hget.
    unfold expand_template. rewrite Hc.
    destruct v as [|c2 v']; [now left|].
    destruct (is_octdigit c && is_octdigit c2) eqn:Eo; [|now left].
    apply andb_true_iff in Eo as [Eo1 Eo2]. right.
    exists c2, v', w, rest. eexists. repeat split; auto.
    simpl. now rewrite <- app_assoc.
Qed.

Lemma digit_value_is_misread_witness :
  rewrite_line [(cps "x", cps "12ab")] (initial_rstate [(cps "x", cps "12ab")])
    (cps "  - x: 1") = Raise ReError
  \/ exists c2 v' w rest mark,
       cps "2ab" = c2 :: v' /\ is_octdigit 49 = true /\ is_octdigit c2 = true
       /\ cps "  - x: 1" = w ++ cps "x" ++ c_colon :: rest
       /\ white_text w = true
       /\ rewrite_line [(cps "x", cps "12ab")]
            (initial_rstate [(cps "x", cps "12ab")]) (cps "  - x: 1")
          = Ok (locked_rstate w [(cps "x", cps "12ab")],
                (64 + 8 * (49 - 48) + (c2 - 48)) :: v' ++ c_colon :: rest,
                mark).
Proof.
  apply (digit_value_is_misread [(cps "x", cps "12ab")]
           (initial_rstate [(cps "x", cps "12ab")]) (cps "  - x: 1") (cps "x")
           49 (cps "2ab")).
  - reflexivity.
  - reflexivity.
  - constructor.
  - reflexivity.
  - reflexivity.
  - reflexivity.
Defined.

Lemma empty_map_line (st : rstate) (line : str) :
  reachable [] st ->
  rewrite_line [] st line = Ok (st, line, c_dot)
  \/ rewrite_line [] st line = Raise (KeyError []).
Proof.
  intros Hreach.
  destruct (reachable_cases [] st line Hreach)
    as [[_ H] | (w & tok & key & rest & -> & _ & Hin & Hk & _ & _ & _ & Hrw)];
    [now left|right].
  simpl in Hin. destruct Hin as [<-|[]]. simpl in Hk. injection Hk as ->.
  now rewrite Hrw.
Qed.

(** X16.  With an empty map no line is ever changed.  The pattern then has
    the empty alternative: lines come out as they went in until one has a
    colon right after its white space, where the run ends with the
    [KeyError] of the empty name. *)
Theorem empty_map_changes_nothing (st : rstate) (lines : list str) :
  reachable [] st ->
  rewrite_lines [] st lines = Ok lines
  \/ rewrite_lines [] st lines = Raise (KeyError []).
Proof.
  intros Hreach. induction lines as [|l ls IH]; simpl; [now left|].
  destruct (empty_map_line st l Hreach) as [-> | ->]; simpl; [|now right].
  destruct IH as [-> | ->]; simpl; auto.
Qed.

Lemma empty_map_changes_nothing_witness :
  rewrite_lines [] (initial_rstate []) [cps "  - copy: x"; cps "  : y"]
  = Ok [cps "  - copy: x"; cps "  : y"]
  \/ rewrite_lines [] (initial_rstate []) [cps "  - copy: x"; cps "  : y"]
     = Raise (KeyError []).
Proof.
  apply (empty_map_changes_nothing (initial_rstate [])). constructor.
Defined.

(** ** The whole run, further *)

Lemma untouched_not_written (out : list event) :
  Forall (touches []) out ->
  Forall (fun e => writes_task_file e = false) out /\ parsed out = [].
Proof.
  induction out as [|e out IH]; intros H; [split; constructor|].
  inversion H as [|? ? He Hout]; subst. destruct (IH Hout) as [IH1 IH2].
  unfold touches in He. split.
  - constructor; [|exact IH1]. destruct e; simpl in *; auto; contradiction.
  - unfold parsed in *. simpl. rewrite IH2.
    destruct e; simpl in *; auto; contradiction.
Qed.

Lemma parsed_app (o1 o2 : list event) :
  parsed (o1 ++ o2) = parsed o1 ++ parsed o2.
Proof. unfold parsed. apply flat_map_app. Qed.

Lemma process_lines_quiet (a : Args.t) (d : dict) (f : str)
    (lines : list str) (st : rstate) :
  parsed (events (process_lines a d f st lines)) = []
  /\ (Args.writefiles a = false ->
      Forall (fun e => writes_task_file e = false)
             (events (process_lines a d f st lines))).
Proof.
  revert st; induction lines as [|l ls IH]; intros st.
  - split; [reflexivity|constructor].
  - rewrite process_lines_step.
    destruct (rewrite_line d st l) as [[[st' nline] mark]|e];
      [|split; [reflexivity|constructor]].
    destruct (IH st') as [IHp IHw]. cbn [events fst]. split.
    + change (Symbol mark :: ?l) with ([Symbol mark] ++ l).
      rewrite !parsed_app, IHp. now destruct (Args.writefiles a).
    + intros Hw. rewrite Hw. simpl. constructor; [reflexivity|auto].
Qed.

Lemma process_file_unfold (a : Args.t) (d : dict) (fs : filesystem) vars
    (f : str) :
  exists tail,
    events (process_file a d fs vars f)
    = MsgParsing f
        :: events (process_lines a d f (initial_rstate d) (fs f)) ++ tail
    /\ parsed tail = []
    /\ (Args.writefiles a = false ->
        Forall (fun e => writes_task_file e = false) tail)
    /\ (Args.writefiles a = false ->
        forall fs' vars', outcome (process_file a d fs vars f) = Ok (fs', vars')
                          -> fs' = fs).
Proof.
  unfold process_file.
  destruct (process_lines a d f (initial_rstate d) (fs f))
    as [ev [[changed st]|e]].
  - destruct (Args.printdiff a), (Args.writefiles a); simpl;
      eexists; (split; [reflexivity|]); (split; [reflexivity|]);
      split; intros Hw; try discriminate;
      [repeat constructor|now intros fs' vars' [= <- _]
      |repeat constructor|now intros fs' vars' [= <- _]].
  - exists []. simpl. split; [now rewrite app_nil_r|].
    split; [reflexivity|]. split; [constructor|]. intros _ fs' vars' [=].
Qed.

Lemma process_files_parsed (a : Args.t) (d : dict) (files : list str)
    (fs : filesystem) vars :
  exists rest,
    files = parsed (events (process_files a d fs vars files)) ++ rest
    /\ (forall fs', outcome (process_files a d fs vars files) = Ok fs' ->
                    rest = []).
Proof.
  revert fs vars; induction files as [|f files IH]; intros fs vars.
  - exists []. auto.
  - rewrite process_files_cons, events_bind, outcome_bind, parsed_app.
    destruct (process_file_unfold a d fs vars f) as (tail & Hev & Ht & _).
    assert (Hp : parsed (events (process_file a d fs vars f)) = [f]).
    { rewrite Hev. change (MsgParsing f :: ?l) with ([MsgParsing f] ++ l).
      rewrite !parsed_app, Ht.
      now rewrite (proj1 (process_lines_quiet a d f _ _)). }
    rewrite Hp.
    destruct (outcome (process_file a d fs vars f)) as [[fs1 vars1]|e].
    + destruct (IH fs1 vars1) as (rest & Hr & Hok).
      exists rest. simpl. split; [now rewrite <- Hr|exact Hok].
    + exists files. simpl. split; [reflexivity|discriminate].
Qed.

Lemma process_files_dry (a : Args.t) (d : dict) (files : list str)
    (fs : filesystem) vars :
  Args.writefiles a = false ->
  Forall (fun e => writes_task_file e = false)
         (events (process_files a d fs vars files))
  /\ (forall fs', outcome (process_files a d fs vars files) = Ok fs' ->
                  fs' = fs).
Proof.
  intros Hw. revert fs vars; induction files as [|f files IH]; intros fs vars.
  - split; [constructor|now intros fs' [= <-]].
  - rewrite process_files_cons, events_bind, outcome_bind.
    destruct (process_file_unfold a d fs vars f) as (tail & Hev & _ & Ht & Hfs).
    assert (Hq : Forall (fun e => writes_task_file e = false)
                        (events (process_file a d fs vars f))).
    { rewrite Hev. constructor; [reflexivity|].
      apply Forall_app. split; [|auto].
      now apply (proj2 (process_lines_quiet a d f _ _)). }
    destruct (outcome (process_file a d fs vars f)) as [[fs1 vars1]|e].
    + rewrite (Hfs Hw fs1 vars1 eq_refl) in *.
      destruct (IH fs vars1) as [IH1 IH2].
      split; [apply Forall_app; auto|exact IH2].
    + split; [rewrite app_nil_r; exact Hq|discriminate].
Qed.

(** X17.  Without [--write-files] a run changes no task file: nothing is
    printed into one, none is said to be updated, and a run that ends leaves
    every one of them with the lines it had.  (The map file is another
    matter: generation writes it in either case.) *)
Theorem dry_run_writes_nothing `{OsPath} (a : Args.t) (w : World) :
  Args.writefiles a = false ->
  Forall (fun e => writes_task_file e = false) (events (main a w))
  /\ (forall fs, outcome (main a w) = Ok fs -> fs = read_lines w).
Proof.
  intros Hw.
  pose proof (proj1 (untouched_not_written _ (build_events a w))) as Hb.
  destruct (build a w) as [out [d|e]] eqn:E.
  - rewrite (main_after_build _ _ _ _ E).
    destruct (config_exclude_paths _ _) as [excl|e];
      [destruct (find_files a w excl) as [parsefiles|e]|].
    + destruct (process_files_dry a d (parsefiles_of a w) (read_lines w) None
                  Hw) as [Hp Hfs].
      destruct (process_files _ _ _ _ _) as [out' r].
      split; [apply Forall_app; auto|exact Hfs].
    + simpl. rewrite app_nil_r. split; [exact Hb|discriminate].
    + simpl. rewrite app_nil_r. split; [exact Hb|discriminate].
  - rewrite (main_build_fails _ _ _ _ E). split; [exact Hb|discriminate].
Qed.

Lemma dry_run_writes_nothing_witness :
  Forall (fun e => writes_task_file e = false)
    (events (@main posix
               {| Args.directory := cps "/opt/fqcn";
                  Args.fileextensions := [cps "yml"];
                  Args.exclude_paths := [];
                  Args.config := Some (cps "/opt/fqcn/.ansible-lint");
                  Args.writefiles := false;
                  Args.backupextension := cps ".bak";
                  Args.printdiff := true;
                  Args.fqcnmapfile := cps "/opt/fqcn/fqcn.yml";
                  Args.updatefqcnmapfile := false |}
               (example_world (Some foo_cache) 0 no_detail))).
Proof.
  apply (@dry_run_writes_nothing posix). reflexivity.
Defined.

(** X18.  The files are parsed in the order discovery found them, one after
    the other: the files a run started to parse are a first part of that
    list, and the whole list when the run ends without an exception. *)
Theorem files_parsed_in_order `{OsPath} (a : Args.t) (w : World) :
  exists rest,
    parsefiles_of a w = parsed (events (main a w)) ++ rest
    /\ (forall fs, outcome (main a w) = Ok fs -> rest = []).
Proof.
  pose proof (proj2 (untouched_not_written _ (build_events a w))) as Hb.
  destruct (build a w) as [out [d|e]] eqn:E.
  - rewrite (main_after_build _ _ _ _ E). cbn [events fst] in Hb.
    unfold parsefiles_of at 1.
    destruct (config_exclude_paths _ _) as [excl|e] eqn:Ec;
      [destruct (find_files a w excl) as [parsefiles|e] eqn:Ef|].
    + destruct (process_files_parsed a d (parsefiles_of a w) (read_lines w)
                  None) as (rest & Hr & Hok).
      unfold parsefiles_of in Hr at 1. rewrite Ec, Ef in Hr.
      destruct (process_files _ _ _ _ _) as [out' r].
      exists rest. cbn [events outcome fst snd] in *.
      rewrite parsed_app, Hb. auto.
    + exists []. cbn [events fst]. rewrite !app_nil_r, Hb. auto.
    + exists []. cbn [events fst]. rewrite !app_nil_r, Hb. auto.
  - rewrite (main_build_fails _ _ _ _ E). cbn [events fst] in *.
    rewrite Hb. exists (parsefiles_of a w). split; [reflexivity|discriminate].
Qed.

(** X19.  The map file is written before the configuration is looked at: a
    run that generates the map and has no configuration file has dumped the
    new map into the map file when it stops with [NameError]. *)
Theorem map_written_before_config_fails `{OsPath} (a : Args.t) (w : World)
    (out : list event) (d : dict) :
  config_absent a w ->
  read_fqcnmapfile w (Args.fqcnmapfile a) = None
  \/ Args.updatefqcnmapfile a = true ->
  build a w = (out, Ok d) ->
  outcome (main a w) = Raise (NameError "_config")
  /\ exists g, In (CacheWritten (Args.fqcnmapfile a) g) (events (main a w))
               /\ d = add_self_mappings g.
Proof.
  intros Habs Hgen Hb. apply load_config_absent in Habs.
  rewrite (main_after_build _ _ _ _ Hb).
  unfold config_exclude_paths. rewrite Habs. simpl. rewrite app_nil_r.
  split; [reflexivity|].
  destruct (build_cases _ _ _ _ Hb)
    as [(Hu & _ & c & Hc & _) | (_ & g & _ & Hd & Hin)]; [|eauto].
  destruct Hgen; congruence.
Qed.

Lemma map_written_before_config_fails_witness :
  outcome (@main posix write_args
             (example_world None 0
                {| returncode := 0; stdout := Some foo_detail |}))
  = Raise (NameError "_config").
Proof.
  apply (@map_written_before_config_fails posix write_args
           (example_world None 0
              {| returncode := 0; stdout := Some foo_detail |})
           _ _ I (or_introl eq_refl) eq_refl).
Defined.

(** ** The order of the map *)

Lemma same_entriesb_sound (d d' : dict) :
  same_entriesb d d' = true -> same_entries d d'.
Proof.
  unfold same_entriesb. rewrite forallb_forall. intros H k.
  assert (Hk : In k (keys d ++ keys d') -> dict_get k d = dict_get k d').
  { intros Hin. apply H in Hin. unfold agree_on in Hin.
    destruct (dict_get k d), (dict_get k d'); try discriminate; auto.
    apply str_eqb_eq in Hin. now subst. }
  assert (Hc : In k (keys d ++ keys d')
               \/ (dict_get k d = None /\ dict_get k d' = None)).
  { destruct (dict_get k d) as [v|] eqn:E.
    - left. apply in_or_app. left. eapply dict_get_keys; eauto.
    - destruct (dict_get k d') as [v'|] eqn:E'; [|now right].
      left. apply in_or_app. right. eapply dict_get_keys; eauto. }
  destruct Hc as [Hin|[-> ->]]; auto.
Qed.

Lemma locked_match_complete (d : dict) (w tok key rest : str) :
  In key (alternatives (keys d)) ->
  match_text key tok = Some [] ->
  is_matched (locked_rstate w d) (w ++ tok ++ c_colon :: rest) = true.
Proof.
  intros Hin Hm. unfold is_matched. simpl fqcnregex.
  destruct (re_match (locked_regex w d) (w ++ tok ++ c_colon :: rest))
    as [r|] eqn:E; [reflexivity|exfalso].
  unfold re_match, locked_regex in E.
  remember (Cat (Group "module" (alternation (keys d))) (One (Lit c_colon)))
    as tail eqn:Et.
  change (bt (Cat (interp w) tail) ?s [] ?k)
    with (bt (interp w) s [] (fun s1 g1 => bt tail s1 g1 k)) in E.
  rewrite bt_interp, match_text_self in E. subst tail.
  remember (alternation (keys d)) as r eqn:Er.
  simpl bt in E. subst r. rewrite bt_alternation in E.
  pose proof (try_keys_complete _ _ _ E key (c_colon :: rest) Hin
                (match_text_app _ _ _ Hm)) as Hc.
  simpl in Hc. discriminate Hc.
Qed.

Lemma paired_reachable (d d' : dict) (st st' : rstate) :
  paired d d' st st' -> reachable d st /\ reachable d' st'.
Proof.
  intros [[-> ->]|(w & Hw & -> & ->)]; split; now constructor.
Qed.

(** A line that matches with a key of the map as its token matches in the
    paired state of a map with the same entries. *)
Lemma key_token_matches (d d' : dict) (st st' : rstate)
    (w tok rest value : str) :
  paired d d' st st' -> same_entries d d' ->
  dict_get tok d' = Some value ->
  (forall w0, st' = locked_rstate w0 d' -> w = w0) ->
  (st' = initial_rstate d' -> white_lang w) ->
  is_matched st (w ++ tok ++ c_colon :: rest) = true.
Proof.
  intros Hp Hsame Hget Hlock Hini.
  rewrite <- Hsame in Hget.
  assert (Hin : In tok (alternatives (keys d))).
  { pose proof (dict_get_keys _ _ _ Hget) as Hk.
    now rewrite (alternatives_of_keys _ _ Hk). }
  assert (Hm : match_text tok tok = Some []).
  { pose proof (match_text_self tok []) as Hm. now rewrite app_nil_r in Hm. }
  destruct Hp as [[-> ->]|(w0 & Hw0 & -> & ->)].
  - apply (unlocked_match_complete d w tok tok rest (Hini eq_refl) Hin Hm).
  - rewrite (Hlock w0 eq_refl).
    apply (locked_match_complete d w0 tok tok rest Hin Hm).
Qed.

Lemma same_entries_sym (d d' : dict) : same_entries d d' -> same_entries d' d.
Proof. intros H k. now rewrite H. Qed.

Lemma paired_sym (d d' : dict) (st st' : rstate) :
  paired d d' st st' -> paired d' d st' st.
Proof.
  intros [[-> ->]|(w & Hw & -> & ->)]; [now left|right; now exists w].
Qed.

Lemma line_order (d d' : dict) (st st' st1 st1' : rstate)
    (line n n' : str) (m m' : char) :
  wf_map d = true -> wf_map d' = true -> same_entries d d' ->
  paired d d' st st' ->
  rewrite_line d st line = Ok (st1, n, m) ->
  rewrite_line d' st' line = Ok (st1', n', m') ->
  n = n' /\ m = m' /\ paired d d' st1 st1'.
Proof.
  intros Hwf Hwf' Hsame Hp Hr Hr'.
  destruct (paired_reachable _ _ _ _ Hp) as [Hre Hre'].
  destruct (reachable_cases d st line Hre)
    as [[Hm Hl] | (w & tok & key & rest & El & Hw & _ & _ & _ & Hlock & Hini
                   & Hl)];
    destruct (reachable_cases d' st' line Hre')
      as [[Hm' Hl'] | (w' & tok' & key' & rest' & El' & Hw' & _ & _ & _
                       & Hlock' & Hini' & Hl')].
  - rewrite Hl in Hr. rewrite Hl' in Hr'.
    injection Hr as <- <- <-. injection Hr' as <- <- <-. auto.
  - exfalso. rewrite Hl' in Hr'.
    destruct (rewrite_matched_ok _ _ _ _ _ _ _ Hwf' Hr') as (v & Hget & _).
    rewrite El' in Hm.
    now rewrite (key_token_matches d d' st st' w' tok' rest' v Hp Hsame Hget
                   Hlock' Hini') in Hm.
  - exfalso. rewrite Hl in Hr.
    destruct (rewrite_matched_ok _ _ _ _ _ _ _ Hwf Hr) as (v & Hget & _).
    rewrite El in Hm'.
    now rewrite (key_token_matches d' d st' st w tok rest v (paired_sym _ _ _ _ Hp)
                   (same_entries_sym _ _ Hsame) Hget Hlock Hini) in Hm'.
  - rewrite Hl in Hr. rewrite Hl' in Hr'.
    destruct (rewrite_matched_ok _ _ _ _ _ _ _ Hwf Hr) as (v & Hget & _).
    destruct (rewrite_matched_ok _ _ _ _ _ _ _ Hwf' Hr') as (v' & Hget' & _).
    destruct (wf_map_get _ _ _ Hwf Hget) as [Hk Hv].
    destruct (wf_map_get _ _ _ Hwf' Hget') as [Hk' Hv'].
    destruct (wf_key_head _ Hk) as (c & t & Et & Hc).
    destruct (wf_key_head _ Hk') as (c' & t' & Et' & Hc').
    apply ident_not_white in Hc. apply ident_not_white in Hc'.
    assert (E : w ++ c :: (t ++ c_colon :: rest)
                = w' ++ c' :: (t' ++ c_colon :: rest')).
    { rewrite El in El'. rewrite Et, Et' in El'. exact El'. }
    destruct (white_prefix_unique _ _ _ _ _ _ (white_text_forallb _ Hw)
                (white_text_forallb _ Hw') Hc Hc' E) as [<- Etail].
    assert (Etok : tok ++ c_colon :: rest = tok' ++ c_colon :: rest')
      by (rewrite Et, Et'; exact Etail).
    destruct (token_unique _ _ _ _ (wf_key_no_colon _ Hk)
                (wf_key_no_colon _ Hk') Etok) as [<- <-].
    rewrite Hsame, Hget' in Hget. injection Hget as <-.
    rewrite (rewrite_matched_frame _ _ _ _ _ Hget' (wf_value_plain _ Hv'))
      in Hr'.
    rewrite <- Hsame in Hget'.
    rewrite (rewrite_matched_frame _ _ _ _ _ Hget' (wf_value_plain _ Hv'))
      in Hr.
    injection Hr as <- <- <-. injection Hr' as <- <- <-.
    split; [reflexivity|]. split; [reflexivity|]. right. now exists w.
Qed.

Lemma lines_order (d d' : dict) (lines : list str) :
  wf_map d = true -> wf_map d' = true -> same_entries d d' ->
  forall st st' out out',
    paired d d' st st' ->
    rewrite_lines d st lines = Ok out ->
    rewrite_lines d' st' lines = Ok out' ->
    out = out'.
Proof.
  intros Hwf Hwf' Hsame.
  induction lines as [|l ls IH]; intros st st' out out' Hp; simpl.
  - now intros [= <-] [= <-].
  - destruct (rewrite_line d st l) as [[[st1 n] m]|e] eqn:El; simpl;
      [|discriminate].
    destruct (rewrite_line d' st' l) as [[[st1' n'] m']|e] eqn:El'; simpl;
      [|intros _; discriminate].
    destruct (rewrite_lines d st1 ls) as [o|e] eqn:Els; simpl;
      [|discriminate].
    destruct (rewrite_lines d' st1' ls) as [o'|e] eqn:Els'; simpl;
      [|intros _; discriminate].
    intros [= <-] [= <-].
    destruct (line_order _ _ _ _ _ _ _ _ _ _ _ Hwf Hwf' Hsame Hp El El')
      as (-> & _ & Hp1).
    now rewrite (IH _ _ _ _ Hp1 Els Els').
Qed.

(** X20.  The order of the entries of the map does not show in the output:
    two maps with the same entries, both made of module names and dotted
    names, give the same lines for a file whenever both give lines.  (The
    keys are tried in the order of the map, line 211, so that one of the
    two may end with [KeyError] where the other one does not.) *)
Theorem map_order_not_in_output (d d' : dict) (lines out out' : list str) :
  wf_map d = true -> wf_map d' = true -> same_entries d d' ->
  rewrite_file d lines = Ok out ->
  rewrite_file d' lines = Ok out' ->
  out = out'.
Proof.
  intros Hwf Hwf' Hsame. unfold rewrite_file.
  apply (lines_order d d' lines Hwf Hwf' Hsame). now left.
Qed.

Lemma map_order_not_in_output_witness :
  rewrite_file sub_map [cps "  mod: 1"; cps "  sub: 2"; cps "other: 3"]
  = Ok [cps "  ns.coll.sub.mod: 1"; cps "  ns.coll.sub: 2"; cps "other: 3"]
  /\ rewrite_file (rev sub_map)
       [cps "  mod: 1"; cps "  sub: 2"; cps "other: 3"]
     = Ok [cps "  ns.coll.sub.mod: 1"; cps "  ns.coll.sub: 2"; cps "other: 3"].
Proof.
  assert (E : rewrite_file sub_map
                [cps "  mod: 1"; cps "  sub: 2"; cps "other: 3"]
              = Ok [cps "  ns.coll.sub.mod: 1"; cps "  ns.coll.sub: 2";
                    cps "other: 3"]) by (vm_compute; reflexivity).
  split; [exact E|].
  destruct (rewrite_file (rev sub_map)
              [cps "  mod: 1"; cps "  sub: 2"; cps "other: 3"])
    as [out'|e] eqn:E'; [|vm_compute in E'; discriminate E'].
  f_equal. symmetry.
  apply (map_order_not_in_output sub_map (rev sub_map) _ _ _
           eq_refl eq_refl
           (same_entriesb_sound sub_map (rev sub_map) eq_refl) E E').
Defined.

(** * The claims *)

(** C1.  Indentation lock.  The first matching line of a file leaves the loop
    in the state that holds its prefix: all the white space and dashes the
    line starts with, which is the text in front of its module token and a
    text of the class [\s*-?\s+].  In that state a line matches only if it
    starts with this very text, the state never changes again, a line that
    puts a known key after any other prefix does not match, and a line that
    does not match is passed on as it is.  What a file leaves in the two
    variables has no effect on the next file: each file is rewritten from
    the state with the prefix not set. *)
Theorem indentation_lock (a : Args.t) (d : dict) (w : str) :
  wf_keys d = true -> white_text w = true ->
  (forall line st' nline mark,
      is_matched (initial_rstate d) line = true ->
      rewrite_line d (initial_rstate d) line = Ok (st', nline, mark) ->
      exists tok rest,
        line = white_prefix line ++ tok ++ c_colon :: rest
        /\ matched_token (initial_rstate d) line = Some tok
        /\ white_lang (white_prefix line)
        /\ white_text (white_prefix line) = true
        /\ startswith line (white_prefix line) = true
        /\ st' = locked_rstate (white_prefix line) d)
  /\ (forall line,
         is_matched (locked_rstate w d) line = true -> startswith line w = true)
  /\ (forall line st' nline mark,
         rewrite_line d (locked_rstate w d) line = Ok (st', nline, mark) ->
         st' = locked_rstate w d)
  /\ (forall w' k rest,
         forallb white_char w' = true -> w' <> w -> In k (keys d) ->
         is_matched (locked_rstate w d) (w' ++ k ++ c_colon :: rest) = false)
  /\ (forall line,
         is_matched (locked_rstate w d) line = false ->
         rewrite_line d (locked_rstate w d) line
         = Ok (locked_rstate w d, line, c_dot))
  /\ (forall fs vars1 vars2 f,
         process_file a d fs vars1 f = process_file a d fs vars2 f)
  /\ (forall fs vars f,
         rmap fst (outcome (process_file a d fs vars f))
         = rmap (fun changed =>
                   if Args.writefiles a then write_file fs f changed else fs)
                (rewrite_file d (fs f))).
Proof.
  intros Hwf Hw.
  split; [|split; [|split; [|split; [|split; [|split]]]]].
  - (* the first match captures the prefix *)
    intros line st' nline mark Hm Hr.
    unfold is_matched in Hm. simpl fqcnregex in Hm.
    destruct (re_match (_fqcnregex d) line) as [[g rest]|] eqn:E;
      [|discriminate].
    destruct (rewrite_line_unlocked _ _ _ _ E)
      as (w0 & tok & key & Hline & Hw0 & _ & _ & Hg & Hrw).
    rewrite Hrw in Hr.
    assert (Hk : wf_key tok = true).
    { unfold rewrite_matched in Hr.
      destruct (dict_get tok d) as [v|] eqn:Eg; [|discriminate].
      apply (wf_keys_In d); [exact Hwf|]. eapply dict_get_keys; eauto. }
    apply rewrite_matched_state in Hr.
    destruct (wf_key_head _ Hk) as (c & t & Et & Hc).
    pose proof (white_lang_text _ Hw0) as Hwt.
    assert (Hp : white_prefix line = w0).
    { rewrite Hline, Et. simpl.
      apply white_prefix_app;
        [now apply white_text_forallb|now apply ident_not_white]. }
    rewrite Hp. exists tok, rest.
    split; [exact Hline|]. split.
    { unfold matched_token. simpl fqcnregex. now rewrite E. }
    split; [exact Hw0|]. split; [exact Hwt|]. split; [|exact Hr].
    rewrite Hline. apply startswith_app.
  - (* a later match needs the literal prefix *)
    intros line Hm. unfold is_matched in Hm. simpl fqcnregex in Hm.
    destruct (re_match (locked_regex w d) line) as [[g rest]|] eqn:E;
      [|discriminate].
    apply (locked_match_sound _ _ _ _ _ (white_text_forallb _ Hw)) in E
      as (tok & key & -> & _).
    apply startswith_app.
  - (* the prefix is frozen *)
    intros line st' nline mark Hr.
    destruct (is_matched (locked_rstate w d) line) eqn:Hm.
    + unfold is_matched in Hm. simpl fqcnregex in Hm.
      destruct (re_match (locked_regex w d) line) as [[g rest]|] eqn:E;
        [|discriminate].
      destruct (rewrite_line_locked _ _ _ _ _ Hw E)
        as (tok & key & _ & _ & _ & _ & Hrw).
      rewrite Hrw in Hr. now apply rewrite_matched_state in Hr.
    + rewrite (rewrite_line_unmatched _ _ _ Hm) in Hr. now injection Hr.
  - intros w' k rest. now apply locked_other_prefix.
  - intros line. apply rewrite_line_unmatched.
  - reflexivity.
  - intros fs vars f. unfold rewrite_file.
    rewrite process_file_outcome, <- (process_lines_outcome a d f).
    destruct (outcome (process_lines _ _ _ _ _)) as [[changed st]|e];
      reflexivity.
Qed.

(** C2 at its failing input.  A line that does not match is passed on as
    it is, and a matching line whose token is a key comes out with the value
    of the key in place of the token, the prefix, the colon and the rest
    kept; so [  - command: echo hi] becomes
    [  - ansible.builtin.command: echo hi].  But the line
    [  - ansible_builtin.command: echo hi] matches, before and after the
    prefix is captured, and gives no line at all: its token is no key, and
    the run ends with [KeyError]. *)
Theorem matched_line_not_rewritten :
  let locked := locked_rstate (cps "  - ") command_map in
  let line := cps "  - ansible_builtin.command: echo hi" in
  (forall d st l tok value,
      wf_map d = true -> reachable d st ->
      matched_token st l = Some tok -> dict_get tok d = Some value ->
      exists w rest,
        l = w ++ tok ++ c_colon :: rest /\ white_text w = true /\
        rewrite_line d st l
        = Ok (locked_rstate w d, w ++ value ++ c_colon :: rest,
              if str_eqb tok value then c_dot else c_star))
  /\ (forall d st l,
         is_matched st l = false -> rewrite_line d st l = Ok (st, l, c_dot))
  /\ rewrite_line command_map locked (cps "  - command: echo hi")
     = Ok (locked, cps "  - ansible.builtin.command: echo hi", c_star)
  /\ is_matched (initial_rstate command_map) line = true
  /\ is_matched locked line = true
  /\ rewrite_line command_map (initial_rstate command_map) line
     = Raise (KeyError (cps "ansible_builtin.command"))
  /\ rewrite_line command_map locked line
     = Raise (KeyError (cps "ansible_builtin.command"))
  /\ rewrite_file command_map [cps "  - command: echo hi"; line]
     = Raise (KeyError (cps "ansible_builtin.command")).
Proof.
  split; [exact rewrite_key_token|].
  split; [exact rewrite_line_unmatched|].
  repeat split; vm_compute; reflexivity.
Qed.

(** C3 at its failing input.  A second run over the output of a run never
    gives other lines: it gives the same lines or it ends with [KeyError].
    It does end so: with the map of the cache
    [{mod: ns.coll.sub.mod, sub: ns.coll.sub}], which is well formed and has
    its self-mappings, the file with the one line [  sub:mod: 1] is
    rewritten to [  ns.coll.sub:mod: 1]; in the second run the key
    [ns.coll.sub.mod] matches [ns.coll.sub:mod], which is no key.  The same
    when the script writes the file and reads it again. *)
Theorem second_run_fails :
  let lines := [cps "  sub:mod: 1" ++ [c_newline]] in
  let output := [cps "  ns.coll.sub:mod: 1" ++ [c_newline]] in
  (forall d ls out,
      wf_map d = true -> self_mapped d ->
      rewrite_file d ls = Ok out ->
      rewrite_file d out = Ok out
      \/ exists tok, rewrite_file d out = Raise (KeyError tok))
  /\ wf_map sub_map = true
  /\ self_mapped sub_map
  /\ rewrite_file sub_map lines = Ok output
  /\ rewrite_file sub_map output = Raise (KeyError (cps "ns.coll.sub:mod"))
  /\ exists out1 fs1 vars1 out2,
       process_file write_args sub_map (one_file lines) None (cps "tasks.yml")
       = (out1, Ok (fs1, vars1))
       /\ fs1 (cps "tasks.yml") = output
       /\ process_file write_args sub_map fs1 vars1 (cps "tasks.yml")
          = (out2, Raise (KeyError (cps "ns.coll.sub:mod"))).
Proof.
  split.
  { intros d ls out Hwf Hself Hr.
    apply (second_run_same_or_keyerror d ls Hwf Hself _ _ (reach_initial d) Hr). }
  split; [reflexivity|].
  split; [intros k v; apply add_self_mappings_fixed|].
  repeat split; try (vm_compute; reflexivity).
  eexists _, _, _, _. repeat split; vm_compute; reflexivity.
Qed.

(** C4, as the code has it.  Self-mapping.  Whatever way the map was
    built, the map the run uses is the map it started from, the cache or the
    generated map that was dumped, with the self-mappings of lines 176-177:
    a key that is a value of that map maps to itself and every other key has
    the entry it had, so that every value of the finished map is a key that
    maps to itself.  From the cache [{foo: ns.coll.foo}] the map holds [foo]
    with its collection name and the collection name with itself, and the
    line [- ns.coll.foo:], with or without its line end, matches, captures
    the prefix and comes out with the same text.  It is not counted apart in
    the report: its progress mark is [.], the mark of every line that does
    not match. *)
Theorem self_mapping (a : Args.t) (w : World) (out : list event) (d : dict) :
  build a w = (out, Ok d) ->
  (exists d0,
      ((Args.updatefqcnmapfile a = false
        /\ read_fqcnmapfile w (Args.fqcnmapfile a) = Some d0)
       \/ ((read_fqcnmapfile w (Args.fqcnmapfile a) = None
            \/ Args.updatefqcnmapfile a = true)
           /\ cache_writes out = [d0]))
      /\ d = add_self_mappings d0
      /\ forall k,
           dict_get k d
           = if existsb (str_eqb k) (values d0) then Some k
             else dict_get k d0)
  /\ (forall k v, dict_get k d = Some v -> dict_get v d = Some v)
  /\ (read_fqcnmapfile w (Args.fqcnmapfile a) = Some foo_cache ->
      Args.updatefqcnmapfile a = false ->
      dict_get (cps "foo") d = Some (cps "ns.coll.foo")
      /\ dict_get (cps "ns.coll.foo") d = Some (cps "ns.coll.foo")
      /\ forall line,
           line = cps "- ns.coll.foo:" \/
           line = cps "- ns.coll.foo:" ++ [c_newline] ->
           is_matched (initial_rstate d) line = true
           /\ matched_token (initial_rstate d) line = Some (cps "ns.coll.foo")
           /\ rewrite_line d (initial_rstate d) line
              = Ok (locked_rstate (cps "- ") d, line, c_dot)
           /\ (forall f,
                  process_lines a d f (initial_rstate d) [line]
                  = (Symbol c_dot ::
                       (if Args.writefiles a then [LineWritten f line]
                        else []),
                     Ok ([line], locked_rstate (cps "- ") d)))
           /\ forall st other,
                is_matched st other = false ->
                rewrite_line d st other = Ok (st, other, c_dot)).
Proof.
  intros Hb. split; [|split].
  - assert (Hget : forall d0 k,
               dict_get k (add_self_mappings d0)
               = if existsb (str_eqb k) (values d0) then Some k
                 else dict_get k d0).
    { intros d0 k. unfold add_self_mappings.
      change (fun d fqcn => dict_set fqcn fqcn d) with self_map.
      apply self_maps_lookup. }
    destruct (build_cases _ _ _ _ Hb)
      as [(Hu & _ & c & Hc & ->) | (Hgen & g & Hw & -> & _)].
    + exists c. auto.
    + exists g. auto.
  - destruct (build_result _ _ _ _ Hb) as [d0 ->].
    apply add_self_mappings_fixed.
  - intros Hc Hu. rewrite (build_from_cache _ _ _ Hc Hu) in Hb.
    injection Hb as _ <-.
    split; [reflexivity|]. split; [reflexivity|].
    intros line Hline.
    assert (Hr : rewrite_line (add_self_mappings foo_cache)
                   (initial_rstate (add_self_mappings foo_cache)) line
                 = Ok (locked_rstate (cps "- ") (add_self_mappings foo_cache),
                       line, c_dot))
      by (destruct Hline as [-> | ->]; vm_compute; reflexivity).
    split; [destruct Hline as [-> | ->]; vm_compute; reflexivity|].
    split; [destruct Hline as [-> | ->]; vm_compute; reflexivity|].
    split; [exact Hr|]. split.
    + intros f. rewrite process_lines_cons, Hr.
      destruct (Args.writefiles a); reflexivity.
    + intros st other. apply rewrite_line_unmatched.
Qed.

(** C4 as the claim has it fails: the report does not tell the line
    [- ns.coll.foo:] from a line that does not match.  With the map of the
    cache [{foo: ns.coll.foo}] the marks printed for it are the marks
    printed for the line [other: 1], which does not match. *)
Lemma self_mapped_line_not_reported :
  ~ (forall (a : Args.t) (w : World) (out : list event) (d : dict)
            (f other : str),
        build a w = (out, Ok d) ->
        read_fqcnmapfile w (Args.fqcnmapfile a) = Some foo_cache ->
        Args.updatefqcnmapfile a = false ->
        is_matched (initial_rstate d) other = false ->
        marks (events (process_lines a d f (initial_rstate d)
                         [cps "- ns.coll.foo:"]))
        <> marks (events (process_lines a d f (initial_rstate d) [other]))).
Proof.
  intros H.
  apply (H scan_args (example_world (Some foo_cache) 0 no_detail) [] foo_map
           (cps "/opt/fqcn/tasks.yml") (cps "other: 1")
           eq_refl eq_refl eq_refl eq_refl).
  vm_compute. reflexivity.
Qed.

(** C5 at its failing inputs.  With no configuration path, or with a path
    that names no file, the run does not go on: once the map is built it
    stops with [NameError], before any file is looked for. *)
Theorem missing_config_stops_the_run `{OsPath} (a : Args.t) (w : World) :
  config_absent a w ->
  (exists e, outcome (main a w) = Raise e)
  /\ (forall out d, build a w = (out, Ok d) ->
                    main a w = (out, Raise (NameError "_config"))).
Proof.
  intros Habs. apply load_config_absent in Habs.
  assert (Hcfg : config_exclude_paths (load_config a w)
                   (initial_exclude_paths a) = Raise (NameError "_config")).
  { unfold config_exclude_paths. now rewrite Habs. }
  split.
  - destruct (build a w) as [out [d|e]] eqn:E.
    + rewrite (main_after_build _ _ _ _ E), Hcfg. simpl. eauto.
    + rewrite (main_build_fails _ _ _ _ E). simpl. eauto.
  - intros out d E. rewrite (main_after_build _ _ _ _ E), Hcfg. simpl.
    now rewrite app_nil_r.
Qed.

(** C6, as the code has it.  A line gets the mark [*] when it matches and
    its token differs from the value the map gives it; every other line, one
    that does not match as well as one whose token is already its own value,
    gets the mark [.]. *)
Theorem progress_mark (d : dict) (st : rstate) (line : str)
    (st' : rstate) (nline : str) (mark : char) :
  rewrite_line d st line = Ok (st', nline, mark) ->
  mark = mark_of d st line
  /\ (mark = c_star <->
      exists tok value, matched_token st line = Some tok /\
                        dict_get tok d = Some value /\ tok <> value).
Proof.
  unfold rewrite_line, mark_of, matched_token.
  destruct (re_match (fqcnregex st) line) as [[g rest]|].
  - destruct (if negb (truthy (startingwhitespaces st)) then _ else _)
      as [st1|e]; simpl; [|discriminate].
    unfold get_group. destruct (group "module" g) as [tok|]; simpl;
      [|discriminate].
    unfold lookup. destruct (dict_get tok d) as [value|] eqn:Eg; simpl;
      [|discriminate].
    destruct (re_sub _ _ _); simpl; [|discriminate].
    intros [= _ _ <-]. split; [reflexivity|].
    destruct (str_eqb tok value) eqn:E.
    + apply str_eqb_eq in E. split; [discriminate|].
      intros (t & v & Ht & Hv & Hne). injection Ht as <-.
      rewrite Eg in Hv. injection Hv as <-. contradiction.
    + apply str_eqb_neq in E. split; [|reflexivity].
      intros _. now exists tok, value.
  - intros [= _ _ <-]. split; [reflexivity|].
    split; [discriminate|]. intros (t & v & Hm & _). discriminate.
Qed.

(** C6 as the claim has it fails.  [*] is the mark of a rewritten line and
    [.] the mark of a line that does not match; the line [- ns.coll.foo:],
    whose token is its own value, gets [.] and not [*]. *)
Lemma qualified_line_mark :
  ~ (forall d st line tok st' nline mark,
        matched_token st line = Some tok ->
        dict_get tok d = Some tok ->
        rewrite_line d st line = Ok (st', nline, mark) ->
        mark = c_star /\ mark <> c_dot).
Proof.
  intros H.
  destruct (H foo_map (initial_rstate foo_map) (cps "- ns.coll.foo:")
              (cps "ns.coll.foo") (locked_rstate (cps "- ") foo_map)
              (cps "- ns.coll.foo:") c_dot eq_refl eq_refl eq_refl)
    as [H1 _].
  discriminate H1.
Qed.

(** C7 at its failing input.  A detail query that ends with a positive
    return code adds nothing to the map, nor does a module whose
    documentation lacks the collection or the module name, and the loop goes
    on with the next module.  But a detail query that a signal ended has the
    return code -9: it is not 0, yet the test of line 147 lets it pass.  When
    the output it left is a full document, the module gets its entry; when
    the output is no JSON document, the generation stops with
    [JSONDecodeError] and the modules after it are not looked at. *)
Theorem killed_query_not_skipped :
  let killed out := {| returncode := (-9)%Z; stdout := out |} in
  (forall w d modname rest,
      (returncode (ansible_doc_j w modname) > 0)%Z ->
      generate_one w d modname = ([MsgErrorParsing modname], Ok d)
      /\ outcome (generate_loop w d (modname :: rest))
         = outcome (generate_loop w d rest))
  /\ (forall w d modname rest j md,
         (returncode (ansible_doc_j w modname) <= 0)%Z ->
         stdout (ansible_doc_j w modname) = Some j ->
         assoc modname j = Some md ->
         match doc md with
         | Some o => collection o = None \/ module o = None
         | None => True
         end ->
         generate_one w d modname = ([], Ok d)
         /\ generate_loop w d (modname :: rest) = generate_loop w d rest)
  /\ returncode (killed (Some foo_detail)) <> 0%Z
  /\ generate_one (example_world None 0 (killed (Some foo_detail))) []
       (cps "foo")
     = ([MsgMapped (cps "foo") (cps "foo") (cps "ns.coll.foo")],
        Ok [(cps "foo", cps "ns.coll.foo")])
  /\ generate_loop (example_world None 0 (killed None)) []
       [cps "foo"; cps "bar"]
     = ([], Raise JSONDecodeError)
  /\ @main posix scan_args (example_world None 0 (killed None))
     = ([MsgGenerating], Raise JSONDecodeError).
Proof.
  split.
  { intros w d modname rest Hrc.
    pose proof (generate_one_failed w d modname Hrc) as Hone.
    split; [exact Hone|].
    simpl generate_loop. now rewrite outcome_bind, Hone. }
  split.
  { intros w d modname rest j md Hrc Hout Hj Hdoc.
    pose proof (generate_one_incomplete w d modname j md Hrc Hout Hj Hdoc)
      as Hone.
    split; [exact Hone|].
    simpl generate_loop. rewrite Hone. simpl.
    now destruct (generate_loop w d rest). }
  repeat split; try discriminate; vm_compute; reflexivity.
Qed.

(** C8.  When the map is generated and the listing command ends with a
    return code other than 0, the run stops there with
    [CalledProcessError]: all it has done is to announce the generation;
    no map was written or used and no file was parsed. *)
Theorem listing_failure_is_fatal `{OsPath} (a : Args.t) (w : World) :
  read_fqcnmapfile w (Args.fqcnmapfile a) = None
  \/ Args.updatefqcnmapfile a = true ->
  returncode (ansible_doc_lj w) <> 0%Z ->
  main a w = ([MsgGenerating],
              Raise (CalledProcessError (returncode (ansible_doc_lj w)))).
Proof.
  intros Hgen Hrc. apply main_build_fails.
  apply Z.eqb_neq in Hrc.
  assert (Hg : forall d0, generate a w d0
               = ([MsgGenerating],
                  Raise (CalledProcessError (returncode (ansible_doc_lj w))))).
  { intros d0. unfold generate. rewrite Hrc. reflexivity. }
  unfold build.
  destruct (read_fqcnmapfile w (Args.fqcnmapfile a)) as [c|].
  - destruct Hgen as [Hgen|Hgen]; [discriminate|].
    rewrite Hgen. simpl orb. cbv iota. rewrite Hg. reflexivity.
  - simpl orb. cbv iota. rewrite Hg. reflexivity.
Qed.

(** C9.  The path of the map file is always in the exclusion list; a path
    that names the cache artifact is therefore never among the files to
    parse, whatever the walk finds and whatever its extension: nothing the
    run prints or writes is about it, and a run that ends leaves its
    content as it was. *)
Theorem cache_artifact_not_processed `{OsPath} (a : Args.t) (w : World) (f : str) :
  abspath f = abspath (Args.fqcnmapfile a) ->
  In (Args.fqcnmapfile a) (initial_exclude_paths a)
  /\ ~ In f (parsefiles_of a w)
  /\ Forall (fun e => file_of e <> Some f) (events (main a w))
  /\ (forall fs, outcome (main a w) = Ok fs -> fs f = read_lines w f).
Proof.
  intros Hf.
  assert (Hnot : ~ In f (parsefiles_of a w)).
  { intros Hin. apply parsefiles_not_mapfile in Hin.
    rewrite Hf, startswith_refl in Hin. discriminate. }
  split; [apply mapfile_excluded|]. split; [exact Hnot|]. split.
  - eapply Forall_impl; [|apply main_events].
    intros e He Heq. unfold touches in He. rewrite Heq in He. contradiction.
  - intros fs Hfs. now apply (main_frame a).
Qed.

(** C10 at its failing input.  Keys go into the pattern as they are, and
    a dot of a key matches any character but a newline: the line
    [  - ansible_builtin.command: echo hi] matches although its token is no
    key and differs from the key [ansible.builtin.command] at a dot only.
    But the line is not rewritten to the value of that key: the token that
    is looked up in the map is the text that matched, and the lookup raises
    [KeyError], which ends the run.  No line whose token is no key is ever
    rewritten. *)
Theorem unescaped_dot :
  let line := cps "  - ansible_builtin.command: echo hi" in
  let tok := cps "ansible_builtin.command" in
  let key := cps "ansible.builtin.command" in
  (forall x, x <> c_newline -> match_text [c_dot] [x] = Some [])
  /\ (exists line tok key,
         In key (keys command_map) /\ differs_at_dots key tok = true /\
         dict_get tok command_map = None /\
         matched_token (initial_rstate command_map) line = Some tok)
  /\ (forall d st line tok,
         reachable d st -> matched_token st line = Some tok ->
         dict_get tok d = None ->
         rewrite_line d st line = Raise (KeyError tok))
  /\ In key (keys command_map)
  /\ dict_get key command_map = Some key
  /\ differs_at_dots key tok = true
  /\ dict_get tok command_map = None
  /\ matched_token (initial_rstate command_map) line = Some tok
  /\ rewrite_line command_map (initial_rstate command_map) line
     = Raise (KeyError tok)
  /\ rewrite_file command_map [line] = Raise (KeyError tok)
  /\ ~ (exists d st line tok key st' nline mark,
           reachable d st /\ In key (keys d) /\
           differs_at_dots key tok = true /\ dict_get tok d = None /\
           matched_token st line = Some tok /\
           rewrite_line d st line = Ok (st', nline, mark)).
Proof.
  split; [|split; [|split]].
  - intros x Hx. simpl. apply N.eqb_neq in Hx. now rewrite Hx.
  - exists (cps "  - ansible_builtin.command: echo hi"),
           (cps "ansible_builtin.command"), (cps "ansible.builtin.command").
    repeat split; try (vm_compute; reflexivity).
    right. left. reflexivity.
  - exact rewrite_line_unknown_token.
  - split; [right; left; reflexivity|].
    do 6 (split; [vm_compute; reflexivity|]).
    intros (d & st & line & tok & key & st' & nline & mark
            & Hr & _ & _ & Hnone & Hm & Hok).
    rewrite (rewrite_line_unknown_token _ _ _ _ Hr Hm Hnone) in Hok.
    discriminate Hok.
Qed.

(** ** The theorems at concrete inputs *)

Lemma indentation_lock_witness :
  is_matched (locked_rstate (cps "  - ") command_map)
             (cps "    - command: x") = false.
Proof.
  destruct (indentation_lock write_args command_map (cps "  - ")
              eq_refl eq_refl) as (_ & _ & _ & Hother & _ & _ & _).
  apply (Hother (cps "    - ") (cps "command") (cps " x")).
  - reflexivity.
  - discriminate.
  - simpl. auto.
Defined.

Lemma self_mapping_witness :
  dict_get (cps "ns.coll.foo") foo_map = Some (cps "ns.coll.foo").
Proof.
  destruct (self_mapping scan_args (example_world (Some foo_cache) 0 no_detail)
              [] foo_map eq_refl) as (_ & Hfix & _).
  apply (Hfix (cps "foo")). reflexivity.
Defined.

Lemma progress_mark_witness :
  c_star = mark_of foo_map (initial_rstate foo_map) (cps "- foo:").
Proof.
  exact (proj1 (progress_mark foo_map (initial_rstate foo_map) (cps "- foo:")
                  (locked_rstate (cps "- ") foo_map) (cps "- ns.coll.foo:")
                  c_star eq_refl)).
Defined.

Lemma unescaped_dot_witness :
  rewrite_line command_map (initial_rstate command_map)
    (cps "  - ansible_builtin.command: echo hi")
  = Raise (KeyError (cps "ansible_builtin.command")).
Proof.
  apply (proj1 (proj2 (proj2 unescaped_dot))).
  - constructor.
  - reflexivity.
  - reflexivity.
Defined.

Lemma cache_artifact_not_processed_witness :
  In (cps "/opt/fqcn/tasks.yml")
     (@parsefiles_of posix scan_args (example_world (Some foo_cache) 0 no_detail))
  /\ ~ In (cps "/opt/fqcn/fqcn.yml")
          (@parsefiles_of posix scan_args
             (example_world (Some foo_cache) 0 no_detail)).
Proof.
  split.
  - vm_compute. auto.
  - apply (@cache_artifact_not_processed posix scan_args
             (example_world (Some foo_cache) 0 no_detail)
             (cps "/opt/fqcn/fqcn.yml") eq_refl).
Defined.

Lemma missing_config_stops_the_run_witness :
  @main posix write_args (example_world (Some foo_cache) 0 no_detail)
  = ([], Raise (NameError "_config")).
Proof.
  apply (proj2 (@missing_config_stops_the_run posix write_args
                  (example_world (Some foo_cache) 0 no_detail) I)
               [] foo_map).
  reflexivity.
Defined.

Lemma listing_failure_is_fatal_witness :
  @main posix scan_args (example_world None 2 no_detail)
  = ([MsgGenerating], Raise (CalledProcessError 2)).
Proof.
  apply (@listing_failure_is_fatal posix scan_args
           (example_world None 2 no_detail)).
  - left. reflexivity.
  - discriminate.
Defined.

Lemma matched_line_not_rewritten_witness :
  exists w rest,
    cps "  - command: echo hi" = w ++ cps "command" ++ c_colon :: rest
    /\ white_text w = true
    /\ rewrite_line command_map (initial_rstate command_map)
         (cps "  - command: echo hi")
       = Ok (locked_rstate w command_map,
             w ++ cps "ansible.builtin.command" ++ c_colon :: rest, c_star).
Proof.
  apply (proj1 matched_line_not_rewritten command_map
           (initial_rstate command_map) (cps "  - command: echo hi")
           (cps "command") (cps "ansible.builtin.command")).
  - reflexivity.
  - constructor.
  - reflexivity.
  - reflexivity.
Defined.

Lemma second_run_fails_witness :
  rewrite_file foo_map [cps "- ns.coll.foo:"] = Ok [cps "- ns.coll.foo:"]
  \/ exists tok,
       rewrite_file foo_map [cps "- ns.coll.foo:"] = Raise (KeyError tok).
Proof.
  apply (proj1 second_run_fails foo_map [cps "- foo:"]).
  - reflexivity.
  - intros k v. apply add_self_mappings_fixed.
  - reflexivity.
Defined.

Lemma killed_query_not_skipped_witness :
  generate_one (example_world None 0 {| returncode := 1; stdout := None |})
    [] (cps "foo")
  = ([MsgErrorParsing (cps "foo")], Ok []).
Proof.
  apply (proj1 killed_query_not_skipped
           (example_world None 0 {| returncode := 1; stdout := None |})
           [] (cps "foo") []).
  reflexivity.
Defined.
